(** * localbot-pipecat: the streaming text-to-speech client

    A shallow embedding of [src/streamingtts.py] (class [GoogleTTSService]):
    the language table, the SSML builder, the active [_chunk_text], the
    streaming request generator and [run_tts].

    Python strings are sequences of Unicode code points; they are modelled
    as [list N].  The character classes [str.isalnum] and [str.isspace] and
    the case mapping [str.lower] come from the Unicode database of the
    interpreter; they are the fields of the class [PyUnicode], and the
    few facts about them that a proof needs are the fields of
    [PyUnicodeLaws].  [ascii_unicode] is the instance that agrees with
    CPython on the code points below 128. *)

From stdpp Require Import gmap strings list.
From Stdlib Require Import NArith Ascii.

Local Open Scope nat_scope.

(** ** Python strings *)

Abbreviation pystr := (list N).

(** An ASCII literal of the source, code point by code point. *)
Definition str (s : string) : pystr :=
  map N_of_ascii (String.list_ascii_of_string s).

Class PyUnicode := {
  isalnum : N → bool;       (* c.isalnum(), c a one-character string *)
  isspace : N → bool;       (* c.isspace(), c a one-character string *)
  lower : pystr → pystr     (* s.lower() *)
}.

(** [bool(s)] for a string: the empty string is false. *)
Definition truthy (s : pystr) : bool :=
  match s with [] => false | _ => true end.

(** [s.isspace()]: at least one character, and all of them whitespace. *)
Definition str_isspace `{PyUnicode} (s : pystr) : bool :=
  truthy s && forallb isspace s.

(** [s.strip()]: whitespace removed at both ends. *)
Fixpoint lstrip `{PyUnicode} (s : pystr) : pystr :=
  match s with
  | [] => []
  | c :: s' => if isspace c then lstrip s' else s
  end.

Definition strip `{PyUnicode} (s : pystr) : pystr :=
  rev (lstrip (rev (lstrip s))).

(** [s.endswith(' ')] *)
Definition endswith_space (s : pystr) : bool :=
  match last s with
  | Some c => (c =? 32)%N
  | None => false
  end.

(** [join] on the empty separator. *)
Definition join (l : list pystr) : pystr := List.concat l.

(** [sep.join(l)] *)
Fixpoint join_with (sep : pystr) (l : list pystr) : pystr :=
  match l with
  | [] => []
  | [x] => x
  | x :: l' => x ++ sep ++ join_with sep l'
  end.

(** [c in l] for a list of one-character strings. *)
Definition char_in (c : N) (l : list N) : bool :=
  existsb (N.eqb c) l.

(** ** The text chunker, [_chunk_text] (the active definition) *)

Module Chunker.

Definition MAX_WORDS_PER_CHUNK : nat := 3.

(** ['.', '!', '?', '|', '\n'] : the fourth entry of the source is the
    ASCII vertical bar, code point 124. *)
Definition sentence_boundaries : list N := [46; 33; 63; 124; 10]%N.

(** The double quote, the apostrophe and the closing bracket, square
    bracket and brace, in the order of the source. *)
Definition closing_marks : list N := [34; 39; 41; 93; 125]%N.

(** The [while i < len(text)] loop.  The argument [text] is the part of the
    text from index [i] on: its head is [text[i]], the head of its tail is
    [text[i+1]], and it is empty when [i < len(text)] fails. *)
Fixpoint split_loop (text : pystr) (sentences : list pystr)
    (current_sentence : pystr) : list pystr * pystr :=
  match text with
  | [] => (sentences, current_sentence)
  | c :: rest =>
    if (c =? 10)%N then
      split_loop rest (sentences ++ [current_sentence ++ [c]]) []
    else
      let current_sentence := current_sentence ++ [c] in
      if char_in c sentence_boundaries then
        match rest with
        | d :: rest' =>
          if char_in d closing_marks then
            split_loop rest' (sentences ++ [current_sentence ++ [d]]) []
          else
            split_loop rest (sentences ++ [current_sentence]) []
        | [] => split_loop rest (sentences ++ [current_sentence]) []
        end
      else split_loop rest sentences current_sentence
  end.

Definition split_sentences (text : pystr) : list pystr :=
  let '(sentences, current_sentence) := split_loop text [] [] in
  if truthy current_sentence then sentences ++ [current_sentence]
  else sentences.

Section WithUnicode.
Context `{PyUnicode}.

(** [char.isalnum()] or [char] is the apostrophe. *)
Definition is_word_char (c : N) : bool :=
  isalnum c || (c =? 39)%N.

(** The [for char in sentence] loop. *)
Fixpoint tokenize_loop (sentence : pystr) (tokens : list pystr)
    (current_word : pystr) : list pystr * pystr :=
  match sentence with
  | [] => (tokens, current_word)
  | c :: rest =>
    if is_word_char c then tokenize_loop rest tokens (current_word ++ [c])
    else
      let tokens :=
        if truthy current_word then tokens ++ [current_word] else tokens in
      tokenize_loop rest (tokens ++ [[c]]) []
  end.

Definition tokenize (sentence : pystr) : list pystr :=
  let '(tokens, current_word) := tokenize_loop sentence [] [] in
  if truthy current_word then tokens ++ [current_word] else tokens.

(** [token.strip() and any(c.isalnum() for c in token)] *)
Definition is_real_word (token : pystr) : bool :=
  truthy (strip token) && existsb isalnum token.

(** The state of the [for i, token in enumerate(tokens)] loop: the
    function-level list [chunks] and the per-sentence [current_chunk] and
    [word_count]. *)
Record LoopState := {
  chunks : list pystr;
  current_chunk : list pystr;
  word_count : nat
}.

(** One pass through the loop body, entered with the loop variables [i]
    and [token].  The result carries the value of the local [i] when the
    body ends: the [elif] branch assigns [i += 1]. *)
Definition loop_body (tokens : list pystr) (i : nat) (token : pystr)
    (st : LoopState) : LoopState * nat :=
  let current_chunk := current_chunk st ++ [token] in
  let word_count :=
    if is_real_word token then word_count st + 1 else word_count st in
  if word_count =? MAX_WORDS_PER_CHUNK then
    if str_isspace token then
      ({| chunks := chunks st ++ [join current_chunk];
          current_chunk := []; word_count := 0 |}, i)
    else if (i + 1 <? length tokens) && str_isspace (nth (i + 1) tokens [])
    then
      let current_chunk := current_chunk ++ [nth (i + 1) tokens []] in
      ({| chunks := chunks st ++ [join current_chunk];
          current_chunk := []; word_count := 0 |}, i + 1)
    else
      ({| chunks := chunks st ++ [join current_chunk ++ str " "];
          current_chunk := []; word_count := 0 |}, i)
  else
    ({| chunks := chunks st; current_chunk := current_chunk;
        word_count := word_count |}, i).

(** [for i, token in enumerate(tokens)]: [todo] is what the iterator has
    still to deliver and [k] the index of its head.  The iterator binds
    [i] afresh at every step, so the value the body left in [i] is
    dropped. *)
Fixpoint for_enumerate (tokens : list pystr) (k : nat) (todo : list pystr)
    (st : LoopState) : LoopState :=
  match todo with
  | [] => st
  | token :: todo' =>
    for_enumerate tokens (S k) todo' (fst (loop_body tokens k token st))
  end.

(** The body of [for sentence in sentences]. *)
Definition chunk_sentence (chunks0 : list pystr) (sentence : pystr)
    : list pystr :=
  let tokens := tokenize sentence in
  let st := for_enumerate tokens 0 tokens
              {| chunks := chunks0; current_chunk := []; word_count := 0 |} in
  match current_chunk st with
  | [] => chunks st
  | _ :: _ =>
    let final_chunk := join (current_chunk st) in
    let final_chunk :=
      if endswith_space final_chunk then final_chunk
      else final_chunk ++ str " " in
    chunks st ++ [final_chunk]
  end.

(** The closing loop [for i in range(len(chunks))], an update in place. *)
Definition cleanup_step (chunks : list pystr) (i : nat) : list pystr :=
  if endswith_space (nth i chunks []) then chunks
  else <[i := nth i chunks [] ++ str " "]> chunks.

Definition cleanup (chunks : list pystr) : list pystr :=
  foldl cleanup_step chunks (seq 0 (length chunks)).

Definition chunk_text (text : pystr) : list pystr :=
  let sentences := split_sentences text in
  let chunks := foldl chunk_sentence [] sentences in
  cleanup chunks.

End WithUnicode.
End Chunker.

(** ** The language table *)

(** A member of pipecat's [Language] enumeration, by its member name
    ([Language.EN_US] is ["EN_US"]).  The enumeration itself belongs to
    the framework; the keys below are the members the table of the source
    lists, in its order. *)
Abbreviation Language := string.

Definition language_map : gmap string pystr :=
  list_to_map [
    ("AF", str "af-ZA"); ("AF_ZA", str "af-ZA");
    ("AR", str "ar-XA"); ("BN", str "bn-IN");
    ("BN_IN", str "bn-IN"); ("BG", str "bg-BG");
    ("BG_BG", str "bg-BG"); ("CA", str "ca-ES");
    ("CA_ES", str "ca-ES"); ("ZH", str "cmn-CN");
    ("ZH_CN", str "cmn-CN"); ("ZH_TW", str "cmn-TW");
    ("ZH_HK", str "yue-HK"); ("CS", str "cs-CZ");
    ("CS_CZ", str "cs-CZ"); ("DA", str "da-DK");
    ("DA_DK", str "da-DK"); ("NL", str "nl-NL");
    ("NL_BE", str "nl-BE"); ("NL_NL", str "nl-NL");
    ("EN", str "en-US"); ("EN_US", str "en-US");
    ("EN_AU", str "en-AU"); ("EN_GB", str "en-GB");
    ("EN_IN", str "en-IN"); ("ET", str "et-EE");
    ("ET_EE", str "et-EE"); ("FIL", str "fil-PH");
    ("FIL_PH", str "fil-PH"); ("FI", str "fi-FI");
    ("FI_FI", str "fi-FI"); ("FR", str "fr-FR");
    ("FR_CA", str "fr-CA"); ("FR_FR", str "fr-FR");
    ("GL", str "gl-ES"); ("GL_ES", str "gl-ES");
    ("DE", str "de-DE"); ("DE_DE", str "de-DE");
    ("EL", str "el-GR"); ("EL_GR", str "el-GR");
    ("GU", str "gu-IN"); ("GU_IN", str "gu-IN");
    ("HE", str "he-IL"); ("HE_IL", str "he-IL");
    ("HI", str "hi-IN"); ("HI_IN", str "hi-IN");
    ("HU", str "hu-HU"); ("HU_HU", str "hu-HU");
    ("IS", str "is-IS"); ("IS_IS", str "is-IS");
    ("ID", str "id-ID"); ("ID_ID", str "id-ID");
    ("IT", str "it-IT"); ("IT_IT", str "it-IT");
    ("JA", str "ja-JP"); ("JA_JP", str "ja-JP");
    ("KN", str "kn-IN"); ("KN_IN", str "kn-IN");
    ("KO", str "ko-KR"); ("KO_KR", str "ko-KR");
    ("LV", str "lv-LV"); ("LV_LV", str "lv-LV");
    ("LT", str "lt-LT"); ("LT_LT", str "lt-LT");
    ("MS", str "ms-MY"); ("MS_MY", str "ms-MY");
    ("ML", str "ml-IN"); ("ML_IN", str "ml-IN");
    ("MR", str "mr-IN"); ("MR_IN", str "mr-IN");
    ("NO", str "nb-NO"); ("NB", str "nb-NO");
    ("NB_NO", str "nb-NO"); ("PL", str "pl-PL");
    ("PL_PL", str "pl-PL"); ("PT", str "pt-PT");
    ("PT_BR", str "pt-BR"); ("PT_PT", str "pt-PT");
    ("PA", str "pa-IN"); ("PA_IN", str "pa-IN");
    ("RO", str "ro-RO"); ("RO_RO", str "ro-RO");
    ("RU", str "ru-RU"); ("RU_RU", str "ru-RU");
    ("SR", str "sr-RS"); ("SR_RS", str "sr-RS");
    ("SK", str "sk-SK"); ("SK_SK", str "sk-SK");
    ("ES", str "es-ES"); ("ES_ES", str "es-ES");
    ("ES_US", str "es-US"); ("SV", str "sv-SE");
    ("SV_SE", str "sv-SE"); ("TA", str "ta-IN");
    ("TA_IN", str "ta-IN"); ("TE", str "te-IN");
    ("TE_IN", str "te-IN"); ("TH", str "th-TH");
    ("TH_TH", str "th-TH"); ("TR", str "tr-TR");
    ("TR_TR", str "tr-TR"); ("UK", str "uk-UA");
    ("UK_UA", str "uk-UA"); ("VI", str "vi-VN");
    ("VI_VN", str "vi-VN")
  ].

(** [language_map.get(language)] *)
Definition language_to_google_tts_language (language : Language)
    : option pystr :=
  language_map !! language.

(** ** The service object *)

(** [InputParams].  [emphasis], [gender] and [google_style] are literal
    strings of the source; [language] holds a member of [Language] or
    [None]. *)
Record InputParams := {
  p_pitch : option pystr;
  p_rate : option pystr;
  p_volume : option pystr;
  p_emphasis : option pystr;
  p_language : option Language;
  p_gender : option pystr;
  p_google_style : option pystr;
  p_chunk_size : Z
}.

(** The defaults of the class body. *)
Definition default_params : InputParams := {|
  p_pitch := None; p_rate := None; p_volume := None; p_emphasis := None;
  p_language := Some "EN"%string;
  p_gender := None; p_google_style := None; p_chunk_size := 100
|}.

(** The dictionary [self._settings], one field per key. *)
Record Settings := {
  pitch : option pystr;
  rate : option pystr;
  volume : option pystr;
  emphasis : option pystr;
  language : option pystr;
  gender : option pystr;
  google_style : option pystr;
  chunk_size : Z
}.

Record GoogleTTSService := {
  _settings : Settings;
  _voice_id : pystr;
  sample_rate : Z
}.

(** [x if params.language else y]: a member of [Language] is a string
    enumeration member with a non-empty value, so the test fails only on
    [None]. *)
Definition language_setting (l : option Language) : option pystr :=
  match l with
  | Some l => language_to_google_tts_language l
  | None => Some (str "en-US")
  end.

(** [__init__], without the credentials and the client: the settings
    dictionary and [set_voice].  [rate_hz] is the value of the property
    [sample_rate] of the framework base class: [__init__] does not pass
    its own [sample_rate] argument on, so the framework decides it. *)
Definition init (voice_id : pystr) (rate_hz : Z) (params : InputParams)
    : GoogleTTSService := {|
  _settings := {|
    pitch := p_pitch params;
    rate := p_rate params;
    volume := p_volume params;
    emphasis := p_emphasis params;
    language := language_setting (p_language params);
    gender := p_gender params;
    google_style := p_google_style params;
    chunk_size := p_chunk_size params
  |};
  _voice_id := voice_id;
  sample_rate := rate_hz
|}.

(** Truth value of an optional string: [None] and the empty string are
    false. *)
Definition opt_truthy (o : option pystr) : bool :=
  match o with Some s => truthy s | None => false end.

(** An optional string inside an f-string: [None] prints as its name. *)
Definition fmt (o : option pystr) : pystr :=
  match o with Some s => s | None => str "None" end.

(** [f"key='{value}'"] *)
Definition attr (key : string) (value : pystr) : pystr :=
  str key ++ str "='" ++ value ++ str "'".

Definition attr_if (key : string) (o : option pystr) : list pystr :=
  if opt_truthy o then [attr key (fmt o)] else [].

Definition _construct_ssml (self : GoogleTTSService) (text : pystr) : pystr :=
  let s := _settings self in
  let ssml := str "<speak>" in
  let voice_attrs := [attr "name" (_voice_id self)] in
  let voice_attrs := voice_attrs ++ [attr "language" (fmt (language s))] in
  let voice_attrs := voice_attrs ++ attr_if "gender" (gender s) in
  let ssml := ssml ++ str "<voice " ++ join_with (str " ") voice_attrs
                   ++ str ">" in
  let prosody_attrs :=
    attr_if "pitch" (pitch s) ++ attr_if "rate" (rate s)
    ++ attr_if "volume" (volume s) in
  let has_prosody := match prosody_attrs with [] => false | _ => true end in
  let ssml :=
    if has_prosody
    then ssml ++ str "<prosody " ++ join_with (str " ") prosody_attrs
              ++ str ">"
    else ssml in
  let ssml :=
    if opt_truthy (emphasis s)
    then ssml ++ str "<emphasis level='" ++ fmt (emphasis s) ++ str "'>"
    else ssml in
  let ssml :=
    if opt_truthy (google_style s)
    then ssml ++ str "<google:style name='" ++ fmt (google_style s)
              ++ str "'>"
    else ssml in
  let ssml := ssml ++ text in
  let ssml :=
    if opt_truthy (google_style s) then ssml ++ str "</google:style>"
    else ssml in
  let ssml :=
    if opt_truthy (emphasis s) then ssml ++ str "</emphasis>" else ssml in
  let ssml := if has_prosody then ssml ++ str "</prosody>" else ssml in
  ssml ++ str "</voice></speak>".

(** ** The streaming requests *)

(** A raised exception: whether its class derives from [Exception] (what
    the [except Exception] clause catches; cancellation and interpreter
    exit do not), and [str(e)]. *)
Record Exn := {
  is_Exception : bool;
  exn_str : pystr
}.

(** [StreamingSynthesizeRequest]: the configuration request with the
    voice selection, or an input request.  The input message of the
    library, [StreamingSynthesisInput], has a field [text] and no field
    [ssml], so an input request holds text. *)
Inductive Request :=
  | ConfigRequest (language_code : option pystr) (name : pystr)
  | TextInput (text : pystr).

(** The constructor of a library message raises [ValueError] for a
    keyword argument that names none of the fields of the message. *)
Definition unknown_field (message field : string) : Exn :=
  {| is_Exception := true;
     exn_str := str "Unknown field for " ++ str message ++ str ": "
                ++ str field |}.

(** [StreamingSynthesizeRequest(input=StreamingSynthesisInput(text=chunk))] *)
Definition text_request (chunk : pystr) : Exn + Request :=
  inr (TextInput chunk).

(** [StreamingSynthesizeRequest(input=StreamingSynthesisInput(ssml=ssml))]:
    the inner constructor raises, whatever the SSML. *)
Definition ssml_request (ssml : pystr) : Exn + Request :=
  inl (unknown_field "StreamingSynthesisInput" "ssml").

(** A generator as its consumer sees it: the values it yields, in order,
    and the exception that ends it, if it does not end by itself. *)
Definition Generator (A : Type) : Type := list A * option Exn.

(** [yield a] in front of the rest of a generator body. *)
Definition yield_then {A} (a : A) (rest : Generator A) : Generator A :=
  (a :: fst rest, snd rest).

(** [needle in haystack] for strings. *)
Fixpoint starts_with (needle haystack : pystr) : bool :=
  match needle, haystack with
  | [], _ => true
  | _ :: _, [] => false
  | a :: needle', b :: haystack' => (a =? b)%N && starts_with needle' haystack'
  end.

Fixpoint contains (needle haystack : pystr) : bool :=
  starts_with needle haystack ||
  match haystack with
  | [] => false
  | _ :: haystack' => contains needle haystack'
  end.

Section Requests.
Context `{PyUnicode}.

Definition use_ssml (self : GoogleTTSService) : bool :=
  let is_chirp_voice := contains (str "chirp") (lower (_voice_id self)) in
  let is_journey_voice := contains (str "journey") (lower (_voice_id self)) in
  negb (is_chirp_voice || is_journey_voice).

(** [for chunk in text_chunks] in [request_generator]: the request of a
    chunk is built when the consumer asks for it, and an exception of the
    construction ends the generator there. *)
Fixpoint request_loop (self : GoogleTTSService) (use_ssml : bool)
    (text_chunks : list pystr) : Generator Request :=
  match text_chunks with
  | [] => ([], None)
  | chunk :: text_chunks' =>
    let request :=
      if use_ssml then
        let ssml := _construct_ssml self chunk in ssml_request ssml
      else text_request chunk in
    match request with
    | inl e => ([], Some e)
    | inr request =>
      yield_then request (request_loop self use_ssml text_chunks')
    end
  end.

(** The generator that [_create_streaming_request_generator] returns.
    The chunks are computed when the method is called; the generator
    yields the configuration request and then walks the chunks. *)
Definition _create_streaming_request_generator (self : GoogleTTSService)
    (text : pystr) : Generator Request :=
  let config_request :=
    ConfigRequest (language (_settings self)) (_voice_id self) in
  let text_chunks := Chunker.chunk_text text in
  yield_then config_request (request_loop self (use_ssml self) text_chunks).

End Requests.


(** ** The streaming driver, [run_tts] *)

Module Driver.

(** The frames [run_tts] yields. *)
Inductive Frame :=
  | TTSStartedFrame
  | TTSAudioRawFrame (audio : list Byte.byte) (rate : Z) (num_channels : Z)
  | TTSStoppedFrame
  | ErrorFrame (error : pystr).

Inductive Outcome (A : Type) :=
  | Returns (a : A)
  | Raises (e : Exn).
Arguments Returns {A} a.
Arguments Raises {A} e.

(** [response.audio_content] *)
Record Response := { audio_content : list Byte.byte }.

(** What the collaborators do during one call: the metrics methods of the
    framework and the remote client.  Each may return or raise.  The
    remote client is handed the request generator and reads it as it
    sees fit; what a failing generator makes of the call is part of its
    outcome.  The response iterator delivers a list of responses and then
    either ends or raises. *)
Record Env := {
  start_ttfb_metrics : Outcome unit;
  start_tts_usage_metrics : pystr → Outcome unit;
  streaming_synthesize :
    Generator Request → Outcome (list Response * option Exn);
  stop_ttfb_metrics : Outcome unit
}.

(** What an observer of one call sees, in order. *)
Inductive Action :=
  | StartTtfb
  | StartUsage (text : pystr)
  | Yield (f : Frame)
  | Synthesize (requests : Generator Request)
  | StopTtfb
  | Sleep
  | LogException (message : pystr).

(** A computation: the actions performed, and a value or the exception
    that ended it. *)
Definition M (A : Type) : Type := list Action * Outcome A.

#[export] Instance M_ret : MRet M := fun A a => ([], Returns a).

#[export] Instance M_bind : MBind M := fun A B f m =>
  match m with
  | (t, Returns a) => let '(t', r) := f a in (t ++ t', r)
  | (t, Raises e) => (t, Raises e)
  end.

Definition call {A} (a : Action) (o : Outcome A) : M A := ([a], o).
Definition yield (f : Frame) : M unit := ([Yield f], Returns tt).
Definition raise {A} (e : Exn) : M A := ([], Raises e).

(** [try: m  except Exception as e: handler(e)] *)
Definition try_except {A} (m : M A) (handler : Exn → M A) : M A :=
  match m with
  | (t, Raises e) =>
    if is_Exception e then let '(t', r) := handler e in (t ++ t', r)
    else (t, Raises e)
  | _ => m
  end.

Definition CHUNK_SIZE : nat := 1024.

(** [range(0, stop, step)] *)
Definition range0 (stop step : nat) : list nat :=
  map (fun k => k * step) (seq 0 ((stop + step - 1) / step)).

(** [for i in range(0, len(audio_content), CHUNK_SIZE)] *)
Fixpoint audio_loop (self : GoogleTTSService) (audio_content : list Byte.byte)
    (offsets : list nat) : M unit :=
  match offsets with
  | [] => mret tt
  | i :: offsets' =>
    let chunk := take CHUNK_SIZE (drop i audio_content) in
    match chunk with
    | [] => mret tt                                  (* break *)
    | _ :: _ =>
      yield (TTSAudioRawFrame chunk (sample_rate self) 1) ;;
      call Sleep (Returns tt) ;;
      audio_loop self audio_content offsets'
    end
  end.

(** [for response in streaming_responses], with the flag [ttfb_sent]. *)
Fixpoint response_loop (env : Env) (self : GoogleTTSService)
    (responses : list Response) (ttfb_sent : bool) : M bool :=
  match responses with
  | [] => mret ttfb_sent
  | response :: responses' =>
    ttfb_sent ← (if ttfb_sent then mret true
                 else call StopTtfb (stop_ttfb_metrics env) ;; mret true);
    let audio := audio_content response in
    audio_loop self audio (range0 (length audio) CHUNK_SIZE) ;;
    response_loop env self responses' ttfb_sent
  end.

Section WithUnicode.
Context `{PyUnicode}.

Definition run_tts_body (env : Env) (self : GoogleTTSService) (text : pystr)
    : M unit :=
  call StartTtfb (start_ttfb_metrics env) ;;
  call (StartUsage text) (start_tts_usage_metrics env text) ;;
  yield TTSStartedFrame ;;
  let request_generator := _create_streaming_request_generator self text in
  streaming_responses ←
    call (Synthesize request_generator)
         (streaming_synthesize env request_generator);
  response_loop env self (fst streaming_responses) false ;;
  match snd streaming_responses with
  | Some e => raise e
  | None => mret tt
  end ;;
  yield TTSStoppedFrame.

Definition run_tts (env : Env) (self : GoogleTTSService) (text : pystr)
    : M unit :=
  try_except (run_tts_body env self text)
    (fun e =>
       call (LogException (exn_str e)) (Returns tt) ;;
       let error_message :=
         str "Streaming TTS generation error: " ++ exn_str e in
       yield (ErrorFrame error_message)).

End WithUnicode.

(** The frames a call yields, and how often it stops the timer. *)
Definition frames (t : list Action) : list Frame :=
  omap (fun a => match a with Yield f => Some f | _ => None end) t.

Definition is_StopTtfb (a : Action) : bool :=
  match a with StopTtfb => true | _ => false end.

Definition ttfb_stops (t : list Action) : nat :=
  length (filter (fun a => is_StopTtfb a = true) t).

End Driver.

(** ** The ASCII part of the Unicode database *)

Definition ascii_isalnum (c : N) : bool :=
  ((48 <=? c) && (c <=? 57) || (65 <=? c) && (c <=? 90)
   || (97 <=? c) && (c <=? 122))%N.

(** The whitespace code points of CPython (all of them, not only ASCII). *)
Definition py_isspace (c : N) : bool :=
  ((9 <=? c) && (c <=? 13) || (28 <=? c) && (c <=? 32)
   || (c =? 133) || (c =? 160) || (c =? 5760)
   || (8192 <=? c) && (c <=? 8202) || (c =? 8232) || (c =? 8233)
   || (c =? 8239) || (c =? 8287) || (c =? 12288))%N.

Definition ascii_lower_char (c : N) : N :=
  if ((65 <=? c) && (c <=? 90))%N then (c + 32)%N else c.

#[export] Instance ascii_unicode : PyUnicode := {|
  isalnum := ascii_isalnum;
  isspace := py_isspace;
  lower := map ascii_lower_char
|}.

(** The facts about the Unicode database that the proofs use; all three
    hold in CPython. *)
Class PyUnicodeLaws `{PyUnicode} : Prop := {
  (* no alphanumeric character is whitespace *)
  alnum_not_space : ∀ c, isalnum c = true → isspace c = false;
  (* the ASCII space is whitespace *)
  space_isspace : isspace 32%N = true;
  (* [lower] maps an ASCII stretch of a string letter by letter, whatever
     surrounds it *)
  lower_ascii : ∀ pre u post,
    Forall (fun c => (c < 128)%N) u →
    ∃ pre' post', lower (pre ++ u ++ post)
                  = pre' ++ map ascii_lower_char u ++ post'
}.

(** * Notions used in the statements *)


(** What the closing loop of [_chunk_text] does to one chunk. *)
Definition ensure_space (chunk : pystr) : pystr :=
  if endswith_space chunk then chunk else chunk ++ str " ".

Module ChunkerSpec.
Import Chunker.

(** The number of spaces a string ends with. *)
Fixpoint leading_spaces (s : pystr) : nat :=
  match s with
  | c :: s' => if (c =? 32)%N then S (leading_spaces s') else 0
  | [] => 0
  end.

Definition trailing_spaces (s : pystr) : nat := leading_spaces (rev s).

Section WithUnicode.
Context `{PyUnicode}.

(** A word token is a non-empty run of word characters; a separator token
    is one character that is not a word character. *)
Definition is_word_token (t : pystr) : bool :=
  truthy t && forallb is_word_char t.

Definition sep_token (t : pystr) : Prop :=
  ∃ c, t = [c] ∧ is_word_char c = false.

Definition head_not_word (l : list pystr) : Prop :=
  match l with t :: _ => is_word_token t = false | [] => True end.

Definition ends_sep (l : list pystr) : Prop :=
  match last l with Some t => is_word_token t = false | None => True end.

(** Well-formed token lists: word tokens and separators, and no two word
    tokens side by side. *)
Fixpoint wf_tokens (l : list pystr) : Prop :=
  match l with
  | [] => True
  | t :: l' =>
    (is_word_token t = true ∧ head_not_word l' ∨ sep_token t) ∧ wf_tokens l'
  end.

Definition flush (current_word : pystr) : list pystr :=
  if truthy current_word then [current_word] else [].

Definition finish (p : list pystr * pystr) : list pystr :=
  fst p ++ flush (snd p).

(** The chunks one sentence contributes, as a function of the loop state
    and of the tokens still to come.  [for_enumerate_emit] below shows
    that the loop of the source computes it. *)
Fixpoint emit (cur : list pystr) (wc : nat) (todo : list pystr)
    : list pystr :=
  match todo with
  | [] => match cur with [] => [] | _ :: _ => [ensure_space (join cur)] end
  | token :: todo' =>
    let cur' := cur ++ [token] in
    let wc' := if is_real_word token then wc + 1 else wc in
    if wc' =? MAX_WORDS_PER_CHUNK then
      if str_isspace token then join cur' :: emit [] 0 todo'
      else if str_isspace (hd [] todo') then
        join (cur' ++ [hd [] todo']) :: emit [] 0 todo'
      else (join cur' ++ str " ") :: emit [] 0 todo'
    else emit cur' wc' todo'
  end.

Definition flush_final (cur : list pystr) : list pystr :=
  match cur with [] => [] | _ :: _ => [ensure_space (join cur)] end.

(** The chunks of one sentence. *)
Definition sentence_chunks (sentence : pystr) : list pystr :=
  emit [] 0 (tokenize sentence).



Definition count_real_words (tokens : list pystr) : nat :=
  length (filter (fun t => is_real_word t = true) tokens).

(** The text of a well-formed token list with at most [n] real words. *)
Definition chunk_of (n : nat) (chunk : pystr) : Prop :=
  ∃ seg, chunk = join seg ∧ wf_tokens seg ∧ count_real_words seg ≤ n.

(** Every chunk of the list ends in exactly one space, except that the
    last one ends in [n] spaces when [n] is more than one. *)
Definition spaced (n : nat) (l : list pystr) : Prop :=
  Forall (fun chunk => trailing_spaces chunk = 1) (removelast l)
  ∧ ∀ chunk, last l = Some chunk → trailing_spaces chunk = Nat.max 1 n.

(** The number of maximal runs of word characters in a chunk that hold an
    alphanumeric character: the real words the loop counts. *)
Definition real_words (chunk : pystr) : nat :=
  count_real_words (tokenize chunk).

(** The number of all maximal runs of alphanumeric-or-apostrophe
    characters in a chunk. *)
Definition word_runs (chunk : pystr) : nat :=
  length (filter (fun t => is_word_token t = true) (tokenize chunk)).

End WithUnicode.

End ChunkerSpec.

Module DriverSpec.
Import Driver.

Definition is_audio (f : Frame) : bool :=
  match f with TTSAudioRawFrame _ _ _ => true | _ => false end.

Section WithUnicode.
Context `{PyUnicode}.

(** What a call does before it looks at the response stream. *)
Definition opening (self : GoogleTTSService) (text : pystr) : list Action :=
  [StartTtfb; StartUsage text; Yield TTSStartedFrame;
   Synthesize (_create_streaming_request_generator self text)].

(** The responses a call receives: those the remote delivers, when the
    call gets as far as asking for them. *)
Definition responses_received (env : Env) (self : GoogleTTSService)
    (text : pystr) : list Response :=
  match start_ttfb_metrics env, start_tts_usage_metrics env text with
  | Returns _, Returns _ =>
    match streaming_synthesize env
            (_create_streaming_request_generator self text) with
    | Returns (responses, _) => responses
    | Raises _ => []
    end
  | _, _ => []
  end.

End WithUnicode.

(** Sample collaborators, for the concrete runs below. *)
Definition sample_service : GoogleTTSService :=
  init (str "en-US-Neural2-A") 24000 default_params.

Definition boom : Exn := {| is_Exception := true; exn_str := str "boom" |}.

Definition cancelled : Exn :=
  {| is_Exception := false; exn_str := str "cancelled" |}.

(** The first metrics call raises. *)
Definition env_metrics_fail : Env := {|
  start_ttfb_metrics := Raises boom;
  start_tts_usage_metrics := fun _ => Returns tt;
  streaming_synthesize := fun _ => Returns ([], None);
  stop_ttfb_metrics := Returns tt
|}.

(** The remote call raises. *)
Definition env_remote_fail : Env := {|
  start_ttfb_metrics := Returns tt;
  start_tts_usage_metrics := fun _ => Returns tt;
  streaming_synthesize := fun _ => Raises boom;
  stop_ttfb_metrics := Returns tt
|}.

(** The remote call is cancelled. *)
Definition env_remote_cancelled : Env := {|
  start_ttfb_metrics := Returns tt;
  start_tts_usage_metrics := fun _ => Returns tt;
  streaming_synthesize := fun _ => Raises cancelled;
  stop_ttfb_metrics := Returns tt
|}.

(** The remote answers with an empty response stream. *)
Definition env_silent : Env := {|
  start_ttfb_metrics := Returns tt;
  start_tts_usage_metrics := fun _ => Returns tt;
  streaming_synthesize := fun _ => Returns ([], None);
  stop_ttfb_metrics := Returns tt
|}.

End DriverSpec.

(** The voice identifier holds the marker in some letter case. *)
Definition mentions (marker voice_id : pystr) : Prop :=
  ∃ pre u post, voice_id = pre ++ u ++ post
                ∧ map ascii_lower_char u = marker.

(** * Notions used in the further properties *)

Module ChunkerShapes.
Import Chunker ChunkerSpec.

Definition is_boundary (c : N) : bool := char_in c sentence_boundaries.

(** A sentence that the splitting loop closed: a stretch without
    terminator, the terminator, and behind a terminator other than the
    newline at most one closing mark. *)
Definition terminated (s : pystr) : Prop :=
  ∃ body c,
    Forall (fun x => is_boundary x = false) body
    ∧ is_boundary c = true
    ∧ (s = body ++ [c]
       ∨ c ≠ 10%N ∧ ∃ d, char_in d closing_marks = true ∧ s = body ++ [c; d]).

(** What is left when the text ends: no terminator in it. *)
Definition unterminated (s : pystr) : Prop :=
  s ≠ [] ∧ Forall (fun x => is_boundary x = false) s.

Section WithUnicode.
Context `{PyUnicode}.

(** The text of a well-formed token list with exactly [n] real words. *)
Definition chunk_exact (n : nat) (chunk : pystr) : Prop :=
  ∃ seg, chunk = join seg ∧ wf_tokens seg ∧ count_real_words seg = n.

(** The characters of a string that are not whitespace, in order. *)
Definition visible (s : pystr) : pystr :=
  List.filter (fun c => negb (isspace c)) s.

End WithUnicode.

End ChunkerShapes.

Module SsmlSpec.

(** An opening tag with its attribute text, and the closing tag. *)
Definition open_tag (tag : pystr * pystr) : pystr :=
  str "<" ++ fst tag ++ snd tag ++ str ">".

Definition close_tag (tag : pystr * pystr) : pystr :=
  str "</" ++ fst tag ++ str ">".

Definition optional (b : bool) (tag : pystr * pystr)
    : list (pystr * pystr) :=
  if b then [tag] else [].

(** The tags around the text, outermost first, each with the text of its
    attributes. *)
Definition ssml_tags (self : GoogleTTSService) : list (pystr * pystr) :=
  let s := _settings self in
  [ (str "speak", []);
    (str "voice",
     str " " ++ join_with (str " ")
       ([attr "name" (_voice_id self); attr "language" (fmt (language s))]
        ++ attr_if "gender" (gender s))) ]
  ++ optional (opt_truthy (pitch s) || opt_truthy (rate s)
               || opt_truthy (volume s))
       (str "prosody",
        str " " ++ join_with (str " ")
          (attr_if "pitch" (pitch s) ++ attr_if "rate" (rate s)
           ++ attr_if "volume" (volume s)))
  ++ optional (opt_truthy (emphasis s))
       (str "emphasis", str " level='" ++ fmt (emphasis s) ++ str "'")
  ++ optional (opt_truthy (google_style s))
       (str "google:style", str " name='" ++ fmt (google_style s) ++ str "'").

Definition is_lower (c : N) : bool := ((97 <=? c) && (c <=? 122))%N.
Definition is_upper (c : N) : bool := ((65 <=? c) && (c <=? 90))%N.

(** A locale tag: two or three lower-case letters, a hyphen, two
    upper-case letters. *)
Definition is_locale (v : pystr) : bool :=
  match v with
  | [a; b; h; x; y] =>
    is_lower a && is_lower b && (h =? 45)%N && is_upper x && is_upper y
  | [a; b; c; h; x; y] =>
    is_lower a && is_lower b && is_lower c && (h =? 45)%N
    && is_upper x && is_upper y
  | _ => false
  end.

End SsmlSpec.

(** ** Creating the client, [_create_client] *)

Module Client.

(** An exception: whether it is an instance of [GoogleAuthError], and its
    text. *)
Record Exc := {
  is_GoogleAuthError : bool;
  exc_str : pystr
}.

Inductive Res (A : Type) :=
  | Ok (a : A)
  | Err (e : Exc).
Arguments Ok {A} a.
Arguments Err {A} e.

(** The calls [_create_client] makes to the libraries. *)
Inductive Call :=
  | JsonLoads (s : pystr)
  | FromServiceAccountInfo
  | FromServiceAccountFile (path : pystr)
  | Default
  | NewClient.

Section WithTypes.
(** The parsed JSON value, the credentials object and the client object
    belong to the libraries. *)
Context {Json Creds TextToSpeechClient : Type}.

(** What the libraries do: [json.loads], the two constructors of
    [service_account.Credentials], [google.auth.default] (which returns
    the credentials and a project id) and the constructor of the
    client. *)
Record Env := {
  json_loads : pystr → Res Json;
  from_service_account_info : Json → Res Creds;
  from_service_account_file : pystr → Res Creds;
  default : Res (Creds * option pystr);
  new_client : Creds → Res TextToSpeechClient
}.

Definition T (A : Type) : Type := list Call * Res A.

Definition bind {A B} (m : T A) (f : A → T B) : T B :=
  match m with
  | (t, Ok a) => let '(t', r) := f a in (t ++ t', r)
  | (t, Err e) => (t, Err e)
  end.

(** [raise ValueError("No valid credentials provided.")] *)
Definition no_credentials : Exc :=
  {| is_GoogleAuthError := false;
     exc_str := str "No valid credentials provided." |}.

(** The [if]/[elif]/[else] that fills [creds]; a credentials object is
    true, so [creds] stays [None] only where the source passes. *)
Definition find_creds (env : Env) (credentials credentials_path : option pystr)
    : T (option Creds) :=
  if opt_truthy credentials then
    bind ([JsonLoads (fmt credentials)], json_loads env (fmt credentials))
      (fun json_account_info =>
         bind ([FromServiceAccountInfo],
               from_service_account_info env json_account_info)
           (fun creds => ([], Ok (Some creds))))
  else if opt_truthy credentials_path then
    bind ([FromServiceAccountFile (fmt credentials_path)],
          from_service_account_file env (fmt credentials_path))
      (fun creds => ([], Ok (Some creds)))
  else
    match default env with
    | Ok (creds, project_id) => ([Default], Ok (Some creds))
    | Err e =>
      if is_GoogleAuthError e then ([Default], Ok None)      (* pass *)
      else ([Default], Err e)
    end.

Definition _create_client (env : Env)
    (credentials credentials_path : option pystr) : T TextToSpeechClient :=
  bind (find_creds env credentials credentials_path)
    (fun creds =>
       match creds with
       | None => ([], Err no_credentials)
       | Some creds => ([NewClient], new_client env creds)
       end).

(** The calls of a run in which every call returns, by the source of the
    credentials. *)
Definition planned_calls (credentials credentials_path : option pystr)
    : list Call :=
  if opt_truthy credentials then
    [JsonLoads (fmt credentials); FromServiceAccountInfo; NewClient]
  else if opt_truthy credentials_path then
    [FromServiceAccountFile (fmt credentials_path); NewClient]
  else [Default; NewClient].

End WithTypes.
Arguments Env : clear implicits.

End Client.

Module DriverShapes.
Import Driver DriverSpec.

(** The bytes an audio frame carries. *)
Definition payload (f : Frame) : list Byte.byte :=
  match f with TTSAudioRawFrame audio _ _ => audio | _ => [] end.

(** An audio frame as the audio loop builds it: between one and
    [CHUNK_SIZE] bytes, the sample rate of the service, one channel. *)
Definition audio_ok (self : GoogleTTSService) (f : Frame) : Prop :=
  match f with
  | TTSAudioRawFrame audio rate num_channels =>
    0 < length audio ≤ CHUNK_SIZE
    ∧ rate = sample_rate self ∧ num_channels = 1%Z
  | _ => False
  end.

(** The request generators handed to the remote, one per remote call. *)
Definition remote_calls (t : list Action) : list (Generator Request) :=
  omap (fun a => match a with Synthesize r => Some r | _ => None end) t.

(** The texts recorded by the usage metrics. *)
Definition usage_calls (t : list Action) : list pystr :=
  omap (fun a => match a with StartUsage s => Some s | _ => None end) t.

Definition is_Sleep (a : Action) : bool :=
  match a with Sleep => true | _ => false end.

Definition sleeps (t : list Action) : nat :=
  length (List.filter is_Sleep t).

Definition audio_frames (t : list Action) : list Frame :=
  List.filter is_audio (frames t).

(** What the [except] clause makes of a body that ended with [e] after
    the actions [t]. *)
Definition handled (t : list Action) (e : Exn) : M unit :=
  if is_Exception e then
    (t ++ [LogException (exn_str e);
           Yield (ErrorFrame
                    (str "Streaming TTS generation error: " ++ exn_str e))],
     Returns tt)
  else (t, Raises e).

(** A stretch of the trace that only yields audio: well-formed audio
    frames, one sleep behind each, no call to the remote or to the usage
    metrics. *)
Definition audio_only (self : GoogleTTSService) (t : list Action) : Prop :=
  Forall (audio_ok self) (frames t)
  ∧ remote_calls t = [] ∧ usage_calls t = []
  ∧ sleeps t = length (frames t).

Section WithUnicode.
Context `{PyUnicode}.

(** The actions of a call up to the point where the response loop starts
    or the call fails before it. *)
Definition head_actions (env : Env) (self : GoogleTTSService) (text : pystr)
    : list Action :=
  match start_ttfb_metrics env with
  | Raises _ => [StartTtfb]
  | Returns _ =>
    match start_tts_usage_metrics env text with
    | Raises _ => [StartTtfb; StartUsage text]
    | Returns _ => opening self text
    end
  end.

(** Both metrics calls return. *)
Definition metrics_return (env : Env) (text : pystr) : bool :=
  match start_ttfb_metrics env, start_tts_usage_metrics env text with
  | Returns _, Returns _ => true
  | _, _ => false
  end.

End WithUnicode.

(** A remote that answers with two responses, the first longer than
    [CHUNK_SIZE]. *)
Definition sample_responses : list Response :=
  [ {| audio_content := replicate 1030 Byte.x00 |};
    {| audio_content := replicate 10 Byte.x01 |} ].

Definition env_audio : Env := {|
  start_ttfb_metrics := Returns tt;
  start_tts_usage_metrics := fun _ => Returns tt;
  streaming_synthesize := fun _ => Returns (sample_responses, None);
  stop_ttfb_metrics := Returns tt
|}.

End DriverShapes.

(** * Properties *)

Lemma ascii_alnum_not_space c :
  ascii_isalnum c = true → py_isspace c = false.
Proof.
  unfold ascii_isalnum, py_isspace. intros Hc.
  repeat (apply orb_true_iff in Hc as [Hc|Hc]);
    apply andb_true_iff in Hc as [H1 H2];
    apply N.leb_le in H1; apply N.leb_le in H2;
    repeat (apply orb_false_iff; split);
    try (apply N.eqb_neq; lia);
    apply andb_false_iff;
    rewrite !N.leb_gt; lia.
Qed.

#[export] Instance ascii_unicode_laws : PyUnicodeLaws (H := ascii_unicode).
Proof.
  split.
  - exact ascii_alnum_not_space.
  - reflexivity.
  - intros pre u post _. exists (map ascii_lower_char pre),
      (map ascii_lower_char post).
    cbn. by rewrite !map_app.
Qed.

(** ** Strings *)

Lemma endswith_space_snoc s c : endswith_space (s ++ [c]) = (c =? 32)%N.
Proof. unfold endswith_space. by rewrite last_snoc. Qed.

Lemma endswith_space_app s t :
  t ≠ [] → endswith_space (s ++ t) = endswith_space t.
Proof.
  intros Ht. unfold endswith_space.
  destruct (decide (t = [])) as [|_]; [done|].
  destruct t as [|c t] using rev_ind; [done|].
  by rewrite app_assoc, !last_snoc.
Qed.

Lemma ensure_space_ends chunk : endswith_space (ensure_space chunk) = true.
Proof.
  unfold ensure_space. destruct (endswith_space chunk) eqn:E; [done|].
  apply endswith_space_snoc.
Qed.

Lemma ensure_space_idemp chunk :
  ensure_space (ensure_space chunk) = ensure_space chunk.
Proof.
  unfold ensure_space at 1. by rewrite ensure_space_ends.
Qed.



(** ** The chunker *)

Module ChunkerFacts.
Import Chunker ChunkerSpec.

(** The closing loop rewrites every chunk once, in place. *)
Lemma cleanup_prefix (l : list pystr) n :
  n ≤ length l →
  foldl cleanup_step l (seq 0 n) = map ensure_space (take n l) ++ drop n l.
Proof.
  induction n as [|n IH]; intros Hn.
  - by rewrite take_0, drop_0.
  - rewrite seq_S, foldl_app. cbn [foldl]. rewrite IH by lia. cbn.
    destruct (lookup_lt_is_Some_2 l n) as [x Hx]; [lia|].
    rewrite (take_S_r _ _ _ Hx), (drop_S _ _ _ Hx), map_app. cbn.
    set (pre := map ensure_space (take n l)).
    assert (Hlen : length pre = n).
    { unfold pre. rewrite length_map, length_take. lia. }
    unfold cleanup_step.
    replace (nth n (pre ++ x :: drop (S n) l) []) with x
      by (rewrite <- Hlen at 1; by rewrite nth_middle).
    unfold ensure_space. destruct (endswith_space x).
    + by rewrite <- app_assoc.
    + rewrite insert_app_r_alt by lia.
      replace (n - length pre) with 0 by lia. cbn.
      by rewrite <- app_assoc.
Qed.

Lemma cleanup_map (l : list pystr) : cleanup l = map ensure_space l.
Proof.
  unfold cleanup. rewrite cleanup_prefix by lia.
  by rewrite firstn_all, drop_all, app_nil_r.
Qed.

(** *** Sentences *)

Lemma join_cons x (l : list pystr) : join (x :: l) = x ++ join l.
Proof. reflexivity. Qed.

Lemma join_app (l1 l2 : list pystr) : join (l1 ++ l2) = join l1 ++ join l2.
Proof. apply concat_app. Qed.

Lemma split_loop_app text sentences cur :
  ∃ new, fst (split_loop text sentences cur) = sentences ++ new
    ∧ join new ++ snd (split_loop text sentences cur) = cur ++ text
    ∧ Forall (fun s => s ≠ [] ∧ endswith_space s = false) new.
Proof.
  revert sentences cur.
  induction text as [text IH] using (induction_ltof1 _ (@length N)).
  unfold ltof in IH.
  intros sentences cur. destruct text as [|c rest]; cbn [split_loop].
  { exists []. cbn. rewrite !app_nil_r. auto. }
  destruct (c =? 10)%N eqn:Hnl.
  { apply N.eqb_eq in Hnl as ->.
    destruct (IH rest ltac:(cbn; lia) (sentences ++ [cur ++ [10%N]]) [])
      as (new & -> & E & Hnew).
    exists ((cur ++ [10%N]) :: new). split_and!.
    - by rewrite <- app_assoc.
    - rewrite join_cons, <- app_assoc, E. by rewrite <- !app_assoc.
    - constructor; [|done]. split; [by destruct cur|].
      by rewrite endswith_space_snoc. }
  destruct (char_in c sentence_boundaries) eqn:Hb.
  2:{ destruct (IH rest ltac:(cbn; lia) sentences (cur ++ [c]))
        as (new & -> & E & Hnew).
      exists new. split_and!; [done| |done].
      rewrite E. by rewrite <- app_assoc. }
  assert (Hc : c ≠ 32%N).
  { intros ->. discriminate Hb. }
  assert (Hplain : ∃ new,
    fst (split_loop rest (sentences ++ [cur ++ [c]]) []) = sentences ++ new
    ∧ join new ++ snd (split_loop rest (sentences ++ [cur ++ [c]]) [])
      = cur ++ c :: rest
    ∧ Forall (fun s => s ≠ [] ∧ endswith_space s = false) new).
  { destruct (IH rest ltac:(cbn; lia) (sentences ++ [cur ++ [c]]) [])
      as (new & -> & E & Hnew).
    exists ((cur ++ [c]) :: new). split_and!.
    - by rewrite <- app_assoc.
    - rewrite join_cons, <- app_assoc, E. by rewrite <- !app_assoc.
    - constructor; [|done]. split; [by destruct cur|].
      rewrite endswith_space_snoc. by apply N.eqb_neq. }
  destruct rest as [|d rest']; [exact Hplain|].
  destruct (char_in d closing_marks) eqn:Hd; [|exact Hplain].
  assert (Hd' : d ≠ 32%N).
  { intros ->. discriminate Hd. }
  destruct (IH rest' ltac:(cbn; lia)
              (sentences ++ [(cur ++ [c]) ++ [d]]) [])
    as (new & -> & E & Hnew).
  exists (((cur ++ [c]) ++ [d]) :: new). split_and!.
  - by rewrite <- app_assoc.
  - rewrite join_cons, <- app_assoc, E. by rewrite <- !app_assoc.
  - constructor; [|done]. split; [by destruct cur|].
    rewrite endswith_space_snoc. by apply N.eqb_neq.
Qed.

(** The sentences are non-empty pieces of the text, in order, and only
    the last one can end in a space. *)
Lemma split_sentences_spec text :
  ∃ new tail, split_sentences text = new ++ tail
    ∧ join (new ++ tail) = text
    ∧ Forall (fun s => s ≠ [] ∧ endswith_space s = false) new
    ∧ (tail = [] ∨ ∃ s, tail = [s] ∧ s ≠ []
                        ∧ endswith_space s = endswith_space text).
Proof.
  unfold split_sentences.
  destruct (split_loop_app text [] []) as (new & E1 & E2 & Hnew).
  destruct (split_loop text [] []) as [ss cur]. cbn in *. subst ss.
  destruct cur as [|c cur]; cbn [truthy].
  - exists new, []. rewrite !app_nil_r in *. auto.
  - exists new, [c :: cur]. split_and!; [done| |done|].
    + rewrite join_app. cbn. by rewrite app_nil_r.
    + right. exists (c :: cur). split_and!; [done..|].
      rewrite <- E2. by rewrite endswith_space_app.
Qed.

Lemma split_sentences_join text : join (split_sentences text) = text.
Proof.
  destruct (split_sentences_spec text) as (new & tail & -> & E & _). done.
Qed.

Lemma split_sentences_nonempty text :
  Forall (fun s => s ≠ []) (split_sentences text).
Proof.
  destruct (split_sentences_spec text) as (new & tail & -> & _ & Hn & Ht).
  apply Forall_app. split.
  - eapply Forall_impl; [exact Hn|]. by intros ? [].
  - destruct Ht as [->|(s & -> & ? & _)]; by repeat constructor.
Qed.

(** *** Tokens *)

Section Tokens.
Context `{PyUnicode}.

Lemma sep_token_not_word t : sep_token t → is_word_token t = false.
Proof.
  intros (c & -> & Hc). unfold is_word_token. cbn. by rewrite Hc.
Qed.

Lemma wf_tokens_app_inv l1 l2 :
  wf_tokens (l1 ++ l2) → wf_tokens l1 ∧ wf_tokens l2.
Proof.
  induction l1 as [|t l1 IH]; cbn; [done|].
  intros [Ht Hl]. destruct (IH Hl) as [H1 H2]. split_and!; [|done..].
  destruct Ht as [[Hw Hn]|Hs]; [left|by right].
  split; [done|]. by destruct l1.
Qed.

Lemma wf_tokens_snoc l t :
  wf_tokens l →
  (is_word_token t = true ∧ ends_sep l ∨ sep_token t) →
  wf_tokens (l ++ [t]).
Proof.
  induction l as [|a l IH]; cbn; intros Hl Ht.
  - split; [|done]. destruct Ht as [[? _]|?]; auto.
  - destruct Hl as [Ha Hl]. split.
    + destruct Ha as [[Hw Hn]|Hs]; [left|by right]. split; [done|].
      destruct l as [|b l]; [|done]. cbn.
      destruct Ht as [[_ He]|Hs]; [|by apply sep_token_not_word].
      unfold ends_sep in He. cbn in He. congruence.
    + apply IH; [done|]. destruct Ht as [[Hw He]|Hs]; [left|by right].
      split; [done|]. unfold ends_sep in *.
      destruct l as [|b l]; [done|]. by rewrite last_cons_cons in He.
Qed.

Lemma ends_sep_snoc l t : is_word_token t = false → ends_sep (l ++ [t]).
Proof. intros Ht. unfold ends_sep. by rewrite last_snoc. Qed.

Lemma tokenize_finish sentence :
  tokenize sentence = finish (tokenize_loop sentence [] []).
Proof.
  unfold tokenize, finish, flush.
  destruct (tokenize_loop sentence [] []) as [tokens cw]. cbn.
  destruct (truthy cw); by rewrite ?app_nil_r.
Qed.

Lemma tokenize_loop_inv sentence tokens cw :
  wf_tokens tokens → ends_sep tokens → forallb is_word_char cw = true →
  let r := tokenize_loop sentence tokens cw in
  wf_tokens (fst r) ∧ ends_sep (fst r) ∧ forallb is_word_char (snd r) = true
  ∧ join (fst r) ++ snd r = join tokens ++ cw ++ sentence.
Proof.
  revert tokens cw. induction sentence as [|c rest IH];
    intros tokens cw Hwf Hend Hcw; cbn [tokenize_loop].
  { cbn. by rewrite app_nil_r. }
  destruct (is_word_char c) eqn:Hc.
  - destruct (IH tokens (cw ++ [c])) as (? & ? & ? & E); [done..| |].
    { rewrite forallb_app, Hcw. cbn. by rewrite Hc. }
    split_and!; [done..|]. rewrite E. by rewrite <- app_assoc.
  - assert (Hsep : sep_token [c]) by (by exists c).
    destruct cw as [|a cw]; cbn [truthy].
    + destruct (IH (tokens ++ [[c]]) []) as (? & ? & ? & E); [| |done|].
      { apply wf_tokens_snoc; auto. }
      { by apply ends_sep_snoc, sep_token_not_word. }
      split_and!; [done..|]. rewrite E, join_app. cbn.
      by rewrite <- app_assoc.
    + destruct (IH ((tokens ++ [a :: cw]) ++ [[c]]) [])
        as (? & ? & ? & E); [| |done|].
      { apply wf_tokens_snoc; [|by right].
        apply wf_tokens_snoc; [done|]. left. split; [|done].
        unfold is_word_token. by rewrite Hcw. }
      { by apply ends_sep_snoc, sep_token_not_word. }
      split_and!; [done..|]. rewrite E, !join_app. cbn.
      by rewrite app_nil_r, <- !app_assoc.
Qed.

(** Tokenizing loses no character and yields a well-formed list. *)
Lemma tokenize_spec sentence :
  wf_tokens (tokenize sentence) ∧ join (tokenize sentence) = sentence.
Proof.
  rewrite tokenize_finish.
  destruct (tokenize_loop_inv sentence [] []) as (Hwf & Hend & Hw & E);
    [done..|].
  unfold finish, flush. destruct (tokenize_loop sentence [] []) as [ts cw].
  cbn in *. destruct cw as [|a cw]; cbn [truthy].
  - by rewrite !app_nil_r in *.
  - split.
    + apply wf_tokens_snoc; [done|]. left. split; [|done].
      unfold is_word_token. by rewrite Hw.
    + rewrite join_app. cbn. by rewrite app_nil_r.
Qed.

Lemma tokenize_loop_word w rest tokens cw :
  forallb is_word_char w = true →
  tokenize_loop (w ++ rest) tokens cw = tokenize_loop rest tokens (cw ++ w).
Proof.
  revert cw. induction w as [|c w IH]; intros cw Hw; cbn.
  { by rewrite app_nil_r. }
  cbn in Hw. apply andb_true_iff in Hw as [-> Hw].
  rewrite IH by done. by rewrite <- app_assoc.
Qed.

(** Tokenizing the text of a well-formed token list gives the list
    back. *)
Lemma tokenize_loop_join l tokens cw :
  wf_tokens l → (cw = [] ∨ head_not_word l) →
  finish (tokenize_loop (join l) tokens cw) = tokens ++ flush cw ++ l.
Proof.
  revert tokens cw. induction l as [|t l IH]; intros tokens cw Hwf Hcw.
  { cbn. unfold finish. cbn. by rewrite app_nil_r. }
  destruct Hwf as [Ht Hl]. rewrite join_cons.
  destruct Ht as [[Hw Hn]|(c & -> & Hc)].
  - destruct Hcw as [->|Hcw]; [|cbn in Hcw; congruence].
    apply andb_true_iff in Hw as [Hne Hw].
    rewrite tokenize_loop_word by done. cbn [app].
    rewrite IH by auto. unfold flush. by rewrite Hne.
  - cbn [app tokenize_loop]. rewrite Hc.
    fold (flush cw). rewrite IH by auto. cbn.
    unfold flush. destruct (truthy cw); by rewrite <- ?app_assoc.
Qed.

Lemma tokenize_join l : wf_tokens l → tokenize (join l) = l.
Proof.
  intros Hwf. rewrite tokenize_finish, tokenize_loop_join by auto. done.
Qed.

End Tokens.

(** *** The grouping loop *)

Section Grouping.
Context `{PyUnicode}.

Lemma str_isspace_nil : str_isspace [] = false.
Proof. reflexivity. Qed.

(** The look-ahead [tokens[i+1]] is the head of what follows the current
    token. *)
Lemma lookahead tokens k token todo' :
  drop k tokens = token :: todo' →
  nth (k + 1) tokens [] = hd [] todo'
  ∧ ((k + 1 <? length tokens) && str_isspace (nth (k + 1) tokens []))
    = str_isspace (hd [] todo').
Proof.
  intros Hd.
  assert (Hd' : drop (k + 1) tokens = todo').
  { rewrite <- drop_drop, Hd. done. }
  assert (Hn : nth (k + 1) tokens [] = hd [] todo').
  { rewrite nth_lookup. replace (k + 1) with (k + 1 + 0) by lia.
    rewrite <- lookup_drop, Hd'. by destruct todo'. }
  split; [done|]. rewrite Hn.
  destruct todo' as [|n todo'']; cbn [hd].
  { rewrite str_isspace_nil. apply andb_false_r. }
  assert (Hlen : length (drop (k + 1) tokens) = S (length todo''))
    by (by rewrite Hd').
  rewrite length_drop in Hlen.
  replace (k + 1 <? length tokens) with true; [done|].
  symmetry. apply Nat.ltb_lt. lia.
Qed.

Lemma for_enumerate_emit tokens todo : ∀ k st,
  drop k tokens = todo →
  let st' := for_enumerate tokens k todo st in
  chunks st' ++ flush_final (current_chunk st')
  = chunks st ++ emit (current_chunk st) (word_count st) todo.
Proof.
  induction todo as [|token todo' IH]; intros k st Hd; cbn zeta.
  { done. }
  cbn [for_enumerate emit].
  assert (Hd' : drop (S k) tokens = todo').
  { replace (S k) with (k + 1) by lia. by rewrite <- drop_drop, Hd. }
  rewrite (IH (S k) _ Hd'). clear IH.
  destruct (lookahead _ _ _ _ Hd) as [Hn Hla].
  unfold loop_body. rewrite Hla, Hn.
  destruct (_ =? MAX_WORDS_PER_CHUNK); [|done].
  destruct (str_isspace token); cbn; [by rewrite <- app_assoc|].
  destruct (str_isspace (hd [] todo')); cbn; by rewrite <- app_assoc.
Qed.

Lemma chunk_sentence_emit chunks0 sentence :
  chunk_sentence chunks0 sentence = chunks0 ++ sentence_chunks sentence.
Proof.
  unfold chunk_sentence, sentence_chunks.
  pose proof (for_enumerate_emit (tokenize sentence) (tokenize sentence) 0
    {| chunks := chunks0; current_chunk := []; word_count := 0 |}
    eq_refl) as E.
  cbn zeta in E. cbn [chunks current_chunk word_count] in E.
  rewrite <- E.
  destruct (current_chunk _) as [|t cur]; cbn [flush_final].
  - by rewrite app_nil_r.
  - done.
Qed.

Lemma foldl_chunk_sentence sentences : ∀ chunks0,
  foldl chunk_sentence chunks0 sentences
  = chunks0 ++ concat (map sentence_chunks sentences).
Proof.
  induction sentences as [|s ss IH]; intros chunks0; cbn.
  - by rewrite app_nil_r.
  - rewrite IH, chunk_sentence_emit. by rewrite <- app_assoc.
Qed.

(** [_chunk_text] in one line. *)
Lemma chunk_text_emit text :
  chunk_text text
  = map ensure_space
      (concat (map sentence_chunks (split_sentences text))).
Proof.
  unfold chunk_text. by rewrite cleanup_map, foldl_chunk_sentence.
Qed.

(** **** Whitespace tokens and real words *)

Lemma lstrip_spaces t : forallb isspace t = true → lstrip t = [].
Proof.
  induction t as [|c t IH]; cbn; [done|].
  intros [-> Ht]%andb_true_iff. auto.
Qed.

Lemma space_not_real_word t : str_isspace t = true → is_real_word t = false.
Proof.
  intros [_ Ht]%andb_true_iff. unfold is_real_word, strip.
  by rewrite (lstrip_spaces t Ht).
Qed.

Lemma real_word_not_space `{!PyUnicodeLaws} t :
  is_real_word t = true → str_isspace t = false.
Proof.
  intros [_ Ht]%andb_true_iff. apply existsb_exists in Ht as (c & Hin & Hc).
  apply alnum_not_space in Hc. unfold str_isspace.
  apply andb_false_iff. right. apply not_true_is_false. intros Hall.
  rewrite forallb_forall in Hall. specialize (Hall c Hin). congruence.
Qed.

Lemma space_not_word_char `{!PyUnicodeLaws} : is_word_char 32%N = false.
Proof.
  unfold is_word_char. destruct (isalnum 32%N) eqn:E; [|done].
  apply alnum_not_space in E. by rewrite space_isspace in E.
Qed.

(** **** Stripping one space from every chunk *)




Lemma real_word_is_word_token t :
  is_real_word t = true →
  is_word_token t = true ∨ sep_token t → is_word_token t = true.
Proof.
  intros [_ Hex]%andb_true_iff [Hw|(c & -> & Hc)]; [done|].
  cbn in Hex. unfold is_word_char in Hc.
  destruct (isalnum c); [done|]. done.
Qed.

Lemma wf_tokens_nonempty l : wf_tokens l → Forall (fun t => t ≠ []) l.
Proof.
  induction l as [|t l IH]; cbn; [constructor|].
  intros [Ht Hl]. constructor; [|auto].
  destruct Ht as [[Hw _]|(c & -> & _)]; [|done].
  intros ->. discriminate Hw.
Qed.



(** **** Words per chunk *)

Lemma count_real_words_app l1 l2 :
  count_real_words (l1 ++ l2) = count_real_words l1 + count_real_words l2.
Proof. unfold count_real_words. by rewrite filter_app, length_app. Qed.

Lemma count_real_words_one t :
  count_real_words [t] = if is_real_word t then 1 else 0.
Proof.
  unfold count_real_words. rewrite filter_cons, filter_nil.
  destruct (is_real_word t) eqn:E; case_decide; done || congruence.
Qed.

Lemma space_chunk_of `{!PyUnicodeLaws} n seg :
  wf_tokens seg → count_real_words seg ≤ n →
  chunk_of n (join seg ++ str " ").
Proof.
  intros Hwf Hn. exists (seg ++ [[32%N]]). split_and!.
  - by rewrite join_app.
  - apply wf_tokens_snoc; [done|]. right. exists 32%N.
    split; [done|]. apply space_not_word_char.
  - rewrite count_real_words_app, count_real_words_one.
    rewrite space_not_real_word; [lia|].
    unfold str_isspace. cbn. by rewrite space_isspace.
Qed.

Lemma ensure_space_chunk_of `{!PyUnicodeLaws} n chunk :
  chunk_of n chunk → chunk_of n (ensure_space chunk).
Proof.
  intros Hc. unfold ensure_space. destruct (endswith_space chunk); [done|].
  destruct Hc as (seg & -> & Hwf & Hn). by apply space_chunk_of.
Qed.

Lemma emit_chunk_of `{!PyUnicodeLaws} todo : ∀ cur wc,
  wf_tokens (cur ++ todo) → count_real_words cur = wc →
  wc < MAX_WORDS_PER_CHUNK →
  Forall (chunk_of MAX_WORDS_PER_CHUNK) (emit cur wc todo).
Proof.
  unfold MAX_WORDS_PER_CHUNK.
  induction todo as [|token todo' IH]; intros cur wc Hwf Hcount Hwc.
  { rewrite app_nil_r in Hwf. cbn. destruct cur as [|t cur]; [done|].
    repeat constructor. apply ensure_space_chunk_of.
    exists (t :: cur). split_and!; [done..|lia]. }
  assert (Hwf' : wf_tokens ((cur ++ [token]) ++ todo'))
    by (by rewrite <- app_assoc).
  destruct (wf_tokens_app_inv _ _ Hwf') as [Hcur' Htodo'].
  assert (Hcount' : count_real_words (cur ++ [token])
                    = if is_real_word token then wc + 1 else wc).
  { rewrite count_real_words_app, count_real_words_one, Hcount.
    destruct (is_real_word token); lia. }
  cbn [emit]. unfold MAX_WORDS_PER_CHUNK.
  set (wc' := if is_real_word token then wc + 1 else wc) in *.
  assert (wc' ≤ 3) by (subst wc'; destruct (is_real_word token); lia).
  destruct (wc' =? 3) eqn:Hclose.
  2:{ apply Nat.eqb_neq in Hclose. apply IH; [done..|lia]. }
  assert (Hrest : Forall (chunk_of 3) (emit [] 0 todo')).
  { apply IH; [done|done|lia]. }
  destruct (str_isspace token).
  { constructor; [|done]. exists (cur ++ [token]). split_and!; [done..|lia]. }
  destruct (str_isspace (hd [] todo')) eqn:Hnext.
  - constructor; [|done]. destruct todo' as [|s todo'']; [done|].
    cbn [hd] in *. exists ((cur ++ [token]) ++ [s]). split_and!; [done| |].
    + replace ((cur ++ [token]) ++ s :: todo'')
        with (((cur ++ [token]) ++ [s]) ++ todo'') in Hwf'
        by (by rewrite <- !app_assoc).
      by apply wf_tokens_app_inv in Hwf' as [? _].
    + rewrite count_real_words_app, count_real_words_one, Hcount'.
      rewrite (space_not_real_word _ Hnext). lia.
  - constructor; [|done]. apply space_chunk_of; [done|lia].
Qed.

(** **** A sentence with a token yields a chunk *)

Lemma emit_nonempty todo : ∀ cur wc,
  cur ≠ [] ∨ todo ≠ [] → emit cur wc todo ≠ [].
Proof.
  induction todo as [|token todo' IH]; intros cur wc Hne.
  { destruct Hne as [Hne|Hne]; [|done]. by destruct cur. }
  cbn [emit]. destruct (_ =? MAX_WORDS_PER_CHUNK).
  - destruct (str_isspace token); [done|].
    by destruct (str_isspace (hd [] todo')).
  - apply IH. left. by destruct cur.
Qed.

(** **** The loop over a prefix of the tokens *)

Lemma for_enumerate_app tokens todo1 todo2 : ∀ k st,
  for_enumerate tokens k (todo1 ++ todo2) st
  = for_enumerate tokens (k + length todo1) todo2
      (for_enumerate tokens k todo1 st).
Proof.
  induction todo1 as [|t todo1 IH]; intros k st; cbn.
  - by rewrite Nat.add_0_r.
  - rewrite IH. f_equal. lia.
Qed.

Lemma for_enumerate_prefix_emit tokens pre todo st0 :
  tokens = pre ++ todo →
  let st := for_enumerate tokens 0 pre st0 in
  chunks st0 ++ emit (current_chunk st0) (word_count st0) tokens
  = chunks st ++ emit (current_chunk st) (word_count st) todo.
Proof.
  intros E. cbn zeta.
  assert (Hrun : for_enumerate tokens 0 tokens st0
                 = for_enumerate tokens (length pre) todo
                     (for_enumerate tokens 0 pre st0)).
  { transitivity (for_enumerate tokens 0 (pre ++ todo) st0);
      [by rewrite <- E|apply for_enumerate_app]. }
  rewrite <- (for_enumerate_emit tokens tokens 0 st0 eq_refl).
  rewrite <- (for_enumerate_emit tokens todo (length pre)
                (for_enumerate tokens 0 pre st0)).
  - by rewrite Hrun.
  - rewrite E. by rewrite drop_app_length.
Qed.

(** The first chunk emitted from a non-empty [current_chunk] starts with
    its first token. *)
Lemma emit_head t cur todo : ∀ wc,
  ∃ tail more, emit (t :: cur) wc todo = (t ++ tail) :: more.
Proof.
  revert cur. induction todo as [|token todo' IH]; intros cur wc.
  { cbn. unfold ensure_space. destruct (endswith_space _).
    - by eexists _, _.
    - rewrite <- app_assoc. by eexists _, _. }
  cbn [emit]. destruct (_ =? MAX_WORDS_PER_CHUNK).
  - destruct (str_isspace token); [cbn; by eexists _, _|].
    destruct (str_isspace (hd [] todo')); cbn.
    + by eexists _, _.
    + rewrite <- app_assoc. by eexists _, _.
  - apply (IH (cur ++ [token])).
Qed.

(** **** Spaces at the front of the output *)

Lemma leading_spaces_app_same a z z' :
  leading_spaces z = leading_spaces z' →
  leading_spaces (a ++ z) = leading_spaces (a ++ z').
Proof.
  intros Hz. induction a as [|c a IH]; cbn; [done|].
  by destruct (c =? 32)%N; rewrite ?IH.
Qed.

Lemma leading_spaces_app_other a z :
  Exists (fun c => c ≠ 32%N) a →
  leading_spaces (a ++ z) = leading_spaces a.
Proof.
  induction a as [|c a IH]; intros Hex; [by apply Exists_nil in Hex|].
  cbn. destruct (c =? 32)%N eqn:Hc; [|done].
  apply N.eqb_eq in Hc as ->. apply Exists_cons in Hex as [?|Hex]; [done|].
  by rewrite IH.
Qed.

Lemma leading_spaces_chunk a x z :
  Exists (fun c => c ≠ 32%N) a →
  leading_spaces (ensure_space (a ++ x) ++ z) = leading_spaces a.
Proof.
  intros Ha. unfold ensure_space. destruct (endswith_space _);
    rewrite <- ?app_assoc; by rewrite leading_spaces_app_other.
Qed.

Lemma not_endswith_space_other a :
  a ≠ [] → endswith_space a = false → Exists (fun c => c ≠ 32%N) a.
Proof.
  destruct a as [|c a _] using rev_ind; [done|]. intros _.
  rewrite endswith_space_snoc. intros Hc%N.eqb_neq.
  apply Exists_app. right. by constructor.
Qed.

Lemma real_word_other `{!PyUnicodeLaws} t :
  is_real_word t = true → Exists (fun c => c ≠ 32%N) t.
Proof.
  intros [_ Hex]%andb_true_iff. apply existsb_exists in Hex as (c & Hin & Hc).
  apply Exists_exists. exists c. split; [by apply list_elem_of_In|].
  intros ->. apply alnum_not_space in Hc. by rewrite space_isspace in Hc.
Qed.

Lemma join_snoc_other (cur : list pystr) t :
  Exists (fun c => c ≠ 32%N) t → Exists (fun c => c ≠ 32%N) (join (cur ++ [t])).
Proof.
  intros Ht. rewrite join_app. apply Exists_app. right.
  cbn. by rewrite app_nil_r.
Qed.

(** The chunks of a token list start with as many spaces as its text. *)
Lemma emit_leading_spaces `{!PyUnicodeLaws} todo : ∀ cur wc z z',
  wc < MAX_WORDS_PER_CHUNK →
  Forall (fun t => t ≠ []) cur → Forall (fun t => t ≠ []) todo →
  leading_spaces z = leading_spaces z' →
  leading_spaces (join (map ensure_space (emit cur wc todo)) ++ z)
  = leading_spaces (join cur ++ join todo ++ z').
Proof.
  unfold MAX_WORDS_PER_CHUNK.
  induction todo as [|token todo' IH]; intros cur wc z z' Hwc Hcur Htodo Hz.
  { cbn [emit]. destruct cur as [|t cur]; [done|].
    cbn [map]. rewrite ensure_space_idemp.
    assert (Hne : join (t :: cur) ≠ []).
    { apply Forall_cons in Hcur as [Ht _]. rewrite join_cons. by destruct t. }
    set (x := join (t :: cur)) in *.
    change (join [ensure_space x]) with (ensure_space x ++ []).
    change (join []) with (@nil N). rewrite app_nil_r. cbn [app].
    unfold ensure_space. destruct (endswith_space x) eqn:E.
    - by apply leading_spaces_app_same.
    - pose proof (not_endswith_space_other _ Hne E) as Hex.
      rewrite <- app_assoc, !leading_spaces_app_other; done. }
  apply Forall_cons in Htodo as [Hne Htodo].
  cbn [emit]. unfold MAX_WORDS_PER_CHUNK. rewrite join_cons.
  assert (Hin : join cur ++ (token ++ join todo') ++ z'
                = join (cur ++ [token]) ++ join todo' ++ z').
  { rewrite join_app. cbn. by rewrite app_nil_r, <- !app_assoc. }
  rewrite Hin.
  destruct (is_real_word token) eqn:Hreal.
  2:{ rewrite (proj2 (Nat.eqb_neq wc 3)) by lia.
      apply IH; [done| |done..]. apply Forall_app. by repeat constructor. }
  destruct (wc + 1 =? 3) eqn:Hclose.
  2:{ apply Nat.eqb_neq in Hclose.
      apply IH; [lia| |done..]. apply Forall_app. by repeat constructor. }
  pose proof (join_snoc_other cur token (real_word_other _ Hreal)) as Hex.
  rewrite (real_word_not_space _ Hreal).
  rewrite (leading_spaces_app_other _ _ Hex).
  destruct (str_isspace (hd [] todo')); cbn [map]; rewrite join_cons.
  - rewrite (join_app _ [hd [] todo']). cbn [join concat].
    rewrite app_nil_r, <- app_assoc. by apply leading_spaces_chunk.
  - rewrite <- app_assoc. by apply leading_spaces_chunk.
Qed.

Lemma chunks_leading_spaces `{!PyUnicodeLaws} (ss : list pystr) :
  leading_spaces
    (join (map ensure_space (concat (map sentence_chunks ss))))
  = leading_spaces (join ss).
Proof.
  induction ss as [|sentence ss IH]; [done|].
  cbn [map concat]. rewrite map_app, join_app, join_cons.
  destruct (tokenize_spec sentence) as [Hwf Hj].
  unfold sentence_chunks at 1.
  rewrite (emit_leading_spaces _ [] 0 _ (join ss)).
  - cbn [join concat app]. fold (join (tokenize sentence)). by rewrite Hj.
  - unfold MAX_WORDS_PER_CHUNK. lia.
  - constructor.
  - by apply wf_tokens_nonempty.
  - exact IH.
Qed.

End Grouping.

End ChunkerFacts.

(** *** The whole text *)

Section Text.
Import Chunker ChunkerSpec ChunkerFacts.
Context `{PyUnicode}.



Lemma chunk_text_elem text chunk :
  In chunk (chunk_text text) →
  ∃ sentence c, In sentence (split_sentences text)
    ∧ In c (sentence_chunks sentence) ∧ chunk = ensure_space c.
Proof.
  rewrite chunk_text_emit. intros (c & <- & Hc)%in_map_iff.
  apply in_concat in Hc as (cs & Hcs & Hc).
  apply in_map_iff in Hcs as (sentence & <- & Hs). eauto.
Qed.

(** Every text with a character in it yields a chunk. *)
Lemma chunk_text_nonempty text :
  text ≠ [] → chunk_text text ≠ [].
Proof.
  intros Htext. rewrite chunk_text_emit.
  pose proof (split_sentences_join text) as Hj.
  pose proof (split_sentences_nonempty text) as Hne.
  destruct (split_sentences text) as [|s ss]; [by subst text|].
  apply Forall_cons in Hne as [Hs _]. cbn [map concat].
  destruct (tokenize_spec s) as [_ Htok].
  assert (Hemit : sentence_chunks s ≠ []).
  { unfold sentence_chunks. apply emit_nonempty. right.
    intros E. rewrite E in Htok. by subst s. }
  destruct (sentence_chunks s); done.
Qed.

End Text.

(** *** Trailing spaces *)

Section TrailingSpaces.
Import Chunker ChunkerSpec ChunkerFacts.

Lemma leading_spaces_app_stop x y :
  leading_spaces y = 0 → leading_spaces (x ++ y) = leading_spaces x.
Proof.
  intros Hy. induction x as [|c x IH]; [done|].
  cbn. destruct (c =? 32)%N; [by rewrite IH|done].
Qed.

Lemma trailing_spaces_app_stop a b :
  trailing_spaces a = 0 → trailing_spaces (a ++ b) = trailing_spaces b.
Proof.
  unfold trailing_spaces. intros Ha. rewrite rev_app_distr.
  by apply leading_spaces_app_stop.
Qed.

Lemma trailing_spaces_snoc s c :
  trailing_spaces (s ++ [c])
  = if (c =? 32)%N then S (trailing_spaces s) else 0.
Proof. unfold trailing_spaces. by rewrite rev_app_distr. Qed.

Lemma trailing_spaces_app_keep a b :
  b ≠ [] → trailing_spaces b = 0 → trailing_spaces (a ++ b) = 0.
Proof.
  destruct b as [|c b _] using rev_ind; [done|]. intros _.
  rewrite app_assoc, !trailing_spaces_snoc. by destruct (c =? 32)%N.
Qed.

Lemma trailing_spaces_ensure chunk :
  trailing_spaces (ensure_space chunk) = Nat.max 1 (trailing_spaces chunk).
Proof.
  unfold ensure_space. change (str " ") with [32%N].
  destruct chunk as [|c chunk _] using rev_ind; [done|].
  rewrite endswith_space_snoc. destruct (c =? 32)%N eqn:Hc.
  - rewrite trailing_spaces_snoc, Hc. lia.
  - by rewrite !trailing_spaces_snoc, Hc.
Qed.

Lemma endswith_space_trailing s :
  endswith_space s = false → trailing_spaces s = 0.
Proof.
  destruct s as [|c s _] using rev_ind; [done|].
  rewrite endswith_space_snoc, trailing_spaces_snoc. by intros ->.
Qed.

Lemma join_snoc (cur : list pystr) t : join (cur ++ [t]) = join cur ++ t.
Proof. by rewrite join_app, join_cons, app_nil_r. Qed.

Lemma spaced_nil n : spaced n [].
Proof. split; [constructor|done]. Qed.

Lemma spaced_single n c :
  trailing_spaces c = Nat.max 1 n → spaced n [c].
Proof. intros Hc. split; [constructor|]. cbn. by intros ? [= <-]. Qed.

Lemma spaced_cons n c l :
  trailing_spaces c = 1 → l ≠ [] → spaced n l → spaced n (c :: l).
Proof.
  intros Hc Hl [Hinit Hlast]. destruct l as [|d l]; [done|]. split.
  - change (removelast (c :: d :: l)) with (c :: removelast (d :: l)).
    by constructor.
  - by rewrite last_cons_cons.
Qed.

Lemma spaced_app n a b :
  Forall (fun c => trailing_spaces c = 1) a → b ≠ [] →
  spaced n b → spaced n (a ++ b).
Proof.
  intros Ha Hb [Hinit Hlast]. split.
  - rewrite removelast_app by done. by apply Forall_app.
  - intros c. rewrite last_app. destruct (last b) eqn:E; [by apply Hlast|].
    by apply last_None in E.
Qed.

Lemma spaced_all l : spaced 0 l → Forall (fun c => trailing_spaces c = 1) l.
Proof.
  intros [Hinit Hlast]. destruct l as [|c l _] using rev_ind; [done|].
  rewrite removelast_last in Hinit. apply Forall_app. split; [done|].
  constructor; [|done]. apply Hlast, last_snoc.
Qed.

Section WithUnicode.
Context `{PyUnicode} `{!PyUnicodeLaws}.

Lemma word_token_trailing t :
  is_word_token t = true → t ≠ [] ∧ trailing_spaces t = 0.
Proof.
  unfold is_word_token. intros [Ht Hall]%andb_true_iff.
  split; [by destruct t|].
  destruct t as [|c t _] using rev_ind; [done|].
  rewrite forallb_app in Hall. apply andb_true_iff in Hall as [_ Hc].
  cbn in Hc. rewrite andb_true_r in Hc. rewrite trailing_spaces_snoc.
  destruct (c =? 32)%N eqn:E; [|done].
  apply N.eqb_eq in E as ->. by rewrite space_not_word_char in Hc.
Qed.

(** The chunks of the tokens still to come: all of them end in one
    space, but the last may keep the spaces the tokens end with. *)
Lemma emit_trailing todo : ∀ cur wc,
  wf_tokens todo → wc < MAX_WORDS_PER_CHUNK →
  spaced (trailing_spaces (join cur ++ join todo))
    (map ensure_space (emit cur wc todo)).
Proof.
  induction todo as [|token todo' IH]; intros cur wc Hwf Hwc.
  { cbn [emit join concat]. rewrite app_nil_r.
    destruct cur as [|t cur]; [apply spaced_nil|].
    cbn [map]. rewrite ensure_space_idemp.
    apply spaced_single, trailing_spaces_ensure. }
  destruct Hwf as [Htok Hwf'].
  assert (Hjoin : join cur ++ join (token :: todo')
                  = join (cur ++ [token]) ++ join todo').
  { by rewrite join_snoc, join_cons, app_assoc. }
  cbn [emit].
  destruct (_ =? MAX_WORDS_PER_CHUNK) eqn:Hfull.
  2:{ rewrite Hjoin. apply IH; [done|].
      apply Nat.eqb_neq in Hfull. destruct (is_real_word token); lia. }
  apply Nat.eqb_eq in Hfull.
  assert (Hreal : is_real_word token = true).
  { destruct (is_real_word token); [done|lia]. }
  assert (Hword : is_word_token token = true).
  { apply real_word_is_word_token; [done|].
    destruct Htok as [[Hw _]|Hs]; [by left|by right]. }
  assert (Hnext : head_not_word todo').
  { destruct Htok as [[_ Hn]|Hs]; [done|].
    apply sep_token_not_word in Hs. congruence. }
  destruct (word_token_trailing _ Hword) as [Hne Hzero].
  assert (Hcut : trailing_spaces (join (cur ++ [token])) = 0).
  { rewrite join_snoc. by apply trailing_spaces_app_keep. }
  assert (Hrest : spaced (trailing_spaces (join cur ++ join (token :: todo')))
                    (map ensure_space (emit [] 0 todo'))).
  { rewrite Hjoin, (trailing_spaces_app_stop _ _ Hcut).
    apply (IH [] 0 Hwf'). unfold MAX_WORDS_PER_CHUNK. lia. }
  assert (Hclose : ∀ c0,
    trailing_spaces c0 = 1 →
    spaced (trailing_spaces (join cur ++ join (token :: todo')))
      (c0 :: map ensure_space (emit [] 0 todo'))).
  { intros c0 Hc0. destruct todo' as [|s todo''].
    - cbn [emit map]. apply spaced_single.
      cbn [join concat]. rewrite app_nil_r.
      rewrite <- (join_snoc cur token), Hcut. by rewrite Hc0.
    - apply spaced_cons; [done| |done].
      intros E%map_eq_nil. revert E. apply emit_nonempty. by right. }
  rewrite (real_word_not_space _ Hreal).
  destruct (str_isspace (hd [] todo')) eqn:Hsp; cbn [map]; apply Hclose.
  - destruct todo' as [|s todo'']; [by rewrite str_isspace_nil in Hsp|].
    cbn [hd] in *. destruct Hwf' as [[[Hw _]|(c & -> & _)] _].
    { cbn in Hnext. congruence. }
    rewrite trailing_spaces_ensure, join_snoc, trailing_spaces_snoc, Hcut.
    destruct (c =? 32)%N; done.
  - rewrite trailing_spaces_ensure. change (str " ") with [32%N].
    by rewrite trailing_spaces_snoc, Hcut.
Qed.

Lemma sentence_trailing sentence :
  spaced (trailing_spaces sentence)
    (map ensure_space (sentence_chunks sentence)).
Proof.
  destruct (tokenize_spec sentence) as [Hwf Hj].
  pose proof (emit_trailing (tokenize sentence) [] 0 Hwf) as Hs.
  cbn [join concat app] in Hs. fold (join (tokenize sentence)) in Hs.
  rewrite Hj in Hs. apply Hs. unfold MAX_WORDS_PER_CHUNK. lia.
Qed.

Lemma sentence_chunks_nonempty sentence :
  sentence ≠ [] → map ensure_space (sentence_chunks sentence) ≠ [].
Proof.
  intros Hs E%map_eq_nil. revert E. apply emit_nonempty. right.
  destruct (tokenize_spec sentence) as [_ Hj]. intros E.
  rewrite E in Hj. by subst sentence.
Qed.

(** The chunks of sentences that do not end in a space, followed by the
    chunks of a last sentence. *)
Lemma sentences_trailing (pre : list pystr) s :
  Forall (fun s => s ≠ [] ∧ endswith_space s = false) pre → s ≠ [] →
  spaced (trailing_spaces (join (pre ++ [s])))
    (map ensure_space (concat (map sentence_chunks (pre ++ [s])))).
Proof.
  intros Hpre Hs.
  assert (Hzero : trailing_spaces (join pre) = 0).
  { clear s Hs. induction pre as [|p pre _] using rev_ind; [done|].
    apply Forall_app in Hpre as [_ [[Hp Hend] _]%Forall_cons_1].
    rewrite join_snoc. apply trailing_spaces_app_keep; [done|].
    by apply endswith_space_trailing. }
  rewrite join_snoc, (trailing_spaces_app_stop _ _ Hzero).
  rewrite map_app, concat_app, map_app. cbn [map concat].
  rewrite app_nil_r. apply spaced_app.
  - clear Hzero. induction Hpre as [|p pre [Hp Hend] _ IH]; [constructor|].
    cbn [map concat]. rewrite map_app. apply Forall_app. split; [|done].
    apply spaced_all. rewrite <- (endswith_space_trailing p Hend).
    apply sentence_trailing.
  - by apply sentence_chunks_nonempty.
  - apply sentence_trailing.
Qed.

Lemma chunk_text_trailing text :
  spaced (trailing_spaces text) (chunk_text text).
Proof.
  rewrite chunk_text_emit.
  destruct (split_sentences_spec text) as (new & tail & -> & Hj & Hnew & Ht).
  rewrite <- Hj.
  destruct Ht as [->|(s & -> & Hs & _)]; [|by apply sentences_trailing].
  rewrite app_nil_r.
  destruct new as [|s new _] using rev_ind; [apply spaced_nil|].
  apply Forall_app in Hnew as [Hnew [[Hs _] _]%Forall_cons_1].
  by apply sentences_trailing.
Qed.

End WithUnicode.

End TrailingSpaces.

(** * The claims *)

Section ChunkerClaims.
Import Chunker ChunkerSpec ChunkerFacts.




(** C3, as stated, fails twice.  A chunk can end in more than one space:
    the two spaces that end the text stay in the last chunk.  And an
    apostrophe alone is a run of word characters that the loop does not
    count, so the first chunk below holds five runs. *)
Lemma C3_words_counterexample :
  chunk_text (str "a  ") = [str "a  "]
  ∧ trailing_spaces (str "a  ") = 2
  ∧ chunk_text (str "a ' b ' c ' d") = [str "a ' b ' c "; str " ' d "]
  ∧ word_runs (str "a ' b ' c ") = 5.
Proof. by vm_compute. Qed.

(** C3, amended: every chunk of [_chunk_text], the last one included,
    holds at most [MAX_WORDS_PER_CHUNK] real words, a real word being a
    maximal run of alphanumeric-or-apostrophe characters with at least one
    alphanumeric character in it.  Every chunk but the last ends with
    exactly one space.  The last chunk ends with exactly one space too,
    unless the text itself ends with two or more spaces: then it ends
    with as many spaces as the text. *)
Theorem C3_words_bounded `{PyUnicode} `{!PyUnicodeLaws} text :
  Forall (fun chunk => real_words chunk ≤ MAX_WORDS_PER_CHUNK)
    (chunk_text text)
  ∧ Forall (fun chunk => trailing_spaces chunk = 1)
      (removelast (chunk_text text))
  ∧ ∀ chunk, last (chunk_text text) = Some chunk →
      trailing_spaces chunk = Nat.max 1 (trailing_spaces text).
Proof.
  split; [|apply chunk_text_trailing].
  apply Forall_forall. intros chunk Hin%list_elem_of_In.
  apply chunk_text_elem in Hin as (sentence & c & _ & Hc & ->).
  destruct (tokenize_spec sentence) as [Hwf _].
  pose proof (emit_chunk_of (tokenize sentence) [] 0) as Hall.
  rewrite Forall_forall in Hall.
  destruct (ensure_space_chunk_of MAX_WORDS_PER_CHUNK c)
    as (seg & -> & Hseg & Hn).
  { apply Hall; [done|done|unfold MAX_WORDS_PER_CHUNK; lia|].
    by apply list_elem_of_In. }
  unfold real_words. by rewrite tokenize_join.
Qed.

Lemma C3_words_bounded_witness :
  chunk_text (str "Please tell me. How are you?  ")
  = [str "Please tell me "; str ". "; str " How are you "; str "? ";
     str "  "]
  ∧ Forall (fun chunk => real_words chunk ≤ MAX_WORDS_PER_CHUNK)
      (chunk_text (str "Please tell me. How are you?  "))
  ∧ Forall (fun chunk => trailing_spaces chunk = 1)
      (removelast (chunk_text (str "Please tell me. How are you?  ")))
  ∧ ∀ chunk,
      last (chunk_text (str "Please tell me. How are you?  ")) = Some chunk →
      trailing_spaces chunk = 2.
Proof.
  split; [by vm_compute|].
  exact (C3_words_bounded (str "Please tell me. How are you?  ")).
Defined.

(** C4: the fourth terminator of the source is the ASCII vertical bar,
    not the Devanagari full stop U+0964.  A text with the Devanagari full
    stop between two letters stays one sentence; with the vertical bar it
    is split. *)
Theorem C4_danda_not_a_boundary :
  split_sentences [97; 2404; 98]%N = [[97; 2404; 98]%N]
  ∧ split_sentences (str "a|b") = [str "a|"; str "b"]
  ∧ char_in 2404%N sentence_boundaries = false.
Proof. by vm_compute. Qed.

(** C2: when the third real word [w] of a chunk is directly followed by a
    whitespace token [s], the loop body run on [w] closes the chunk with
    [s] appended and increments its local [i]; the iterator nevertheless
    delivers [s] at the next index, where it opens the next chunk.  In the
    output of [_chunk_text] the closing chunk therefore holds [s] after
    [w] and the chunk behind it starts with [s], while the text holds [s]
    once after [w].  When [s] is the ASCII space the closing chunk ends
    with it, and behind [w] the concatenated chunks start with one space
    more than the text does. *)
Theorem C2_space_token_reused `{PyUnicode} `{!PyUnicodeLaws}
    text before sentence after pre w s rest :
  let tokens := tokenize sentence in
  let i := length pre in
  let st := for_enumerate tokens 0 pre
              {| chunks := foldl chunk_sentence [] before;
                 current_chunk := []; word_count := 0 |} in
  let closing := join (current_chunk st ++ [w; s]) in
  let st1 := {| chunks := chunks st ++ [closing];
                current_chunk := []; word_count := 0 |} in
  let st2 := {| chunks := chunks st ++ [closing];
                current_chunk := [s]; word_count := 0 |} in
  split_sentences text = before ++ sentence :: after →
  tokens = pre ++ w :: s :: rest →
  is_real_word w = true →
  word_count st + 1 = MAX_WORDS_PER_CHUNK →
  str_isspace s = true →
  loop_body tokens i w st = (st1, i + 1)
  ∧ loop_body tokens (i + 1) s st1 = (st2, i + 1)
  ∧ for_enumerate tokens i (w :: s :: rest) st
    = for_enumerate tokens (i + 2) rest st2
  ∧ text = join before ++ join pre ++ w ++ s ++ join rest ++ join after
  ∧ ∃ tail more,
      chunk_text text
      = map ensure_space (chunks st)
        ++ ensure_space (join (current_chunk st) ++ w ++ s)
        :: (s ++ tail) :: more
      ∧ (s = [32%N] →
         ensure_space (join (current_chunk st) ++ w ++ s)
         = join (current_chunk st) ++ w ++ s
         ∧ leading_spaces (s ++ (s ++ tail) ++ join more)
           = 1 + leading_spaces (s ++ join rest ++ join after)).
Proof.
  intros tokens i st closing st1 st2 Hss Htok Hreal Hwc Hs.
  pose proof (real_word_not_space _ Hreal) as Hw.
  assert (Hdrop : drop i tokens = w :: s :: rest).
  { rewrite Htok. subst i. by rewrite drop_app_length. }
  destruct (lookahead _ _ _ _ Hdrop) as [Hn Hla]. cbn [hd] in Hn, Hla.
  assert (Hbody1 : loop_body tokens i w st = (st1, i + 1)).
  { unfold loop_body. rewrite Hreal, Hwc, Nat.eqb_refl, Hw, Hla, Hs, Hn.
    subst st1 closing. by rewrite <- app_assoc. }
  assert (Hbody2 : loop_body tokens (i + 1) s st1 = (st2, i + 1)).
  { unfold loop_body. rewrite (space_not_real_word _ Hs). done. }
  assert (Hclosing : closing = join (current_chunk st) ++ w ++ s).
  { subst closing. rewrite join_app. cbn. by rewrite app_nil_r. }
  split_and!; [done|done| | |].
  - cbn [for_enumerate]. rewrite Hbody1. cbn [fst].
    replace (S i) with (i + 1) by lia. rewrite Hbody2. cbn [fst].
    f_equal. lia.
  - rewrite <- (split_sentences_join text), Hss, join_app, join_cons.
    destruct (tokenize_spec sentence) as [_ <-]. fold tokens.
    rewrite Htok, join_app, !join_cons. by rewrite <- !app_assoc.
  - set (remaining := emit [s] 0 rest ++ concat (map sentence_chunks after)).
    assert (Hout : chunk_text text
                   = map ensure_space (chunks st)
                     ++ ensure_space closing :: map ensure_space remaining).
    { rewrite chunk_text_emit, Hss, map_app, concat_app. cbn [map concat].
      rewrite app_assoc.
      pose proof (for_enumerate_prefix_emit tokens pre (w :: s :: rest)
        {| chunks := foldl chunk_sentence [] before;
           current_chunk := []; word_count := 0 |} Htok) as E.
      cbn zeta in E. cbn [chunks current_chunk word_count] in E.
      fold st in E. rewrite foldl_chunk_sentence in E. cbn [app] in E.
      change (sentence_chunks sentence) with (emit [] 0 tokens).
      rewrite E. clear E.
      cbn [emit]. rewrite Hreal, Hwc, Nat.eqb_refl, Hw. cbn [hd].
      rewrite Hs, (space_not_real_word _ Hs).
      change (0 =? MAX_WORDS_PER_CHUNK) with false. cbn [app].
      rewrite <- !app_assoc, !map_app. cbn [map app]. fold closing.
      by rewrite <- map_app. }
    assert (Hlead : s = [32%N] →
      leading_spaces (join (map ensure_space remaining))
      = leading_spaces (s ++ join rest ++ join after)).
    { intros ->. unfold remaining. rewrite map_app, join_app.
      destruct (wf_tokens_app_inv pre (w :: [32%N] :: rest)) as [_ Hwf].
      { rewrite <- Htok. apply tokenize_spec. }
      apply wf_tokens_nonempty in Hwf.
      rewrite (emit_leading_spaces rest [[32%N]] 0 _ (join after)).
      - done.
      - unfold MAX_WORDS_PER_CHUNK. lia.
      - by repeat constructor.
      - by do 2 apply Forall_cons in Hwf as [_ Hwf].
      - apply chunks_leading_spaces. }
    destruct (emit_head s [] rest 0) as (tail & more & Hemit).
    assert (Hnext : ∃ tail', ensure_space (s ++ tail) = s ++ tail').
    { unfold ensure_space. destruct (endswith_space (s ++ tail)).
      - by eexists.
      - rewrite <- app_assoc. by eexists. }
    destruct Hnext as (tail' & Hnext).
    assert (Hrem : map ensure_space remaining
                   = (s ++ tail')
                     :: map ensure_space
                          (more ++ concat (map sentence_chunks after))).
    { unfold remaining. rewrite Hemit. cbn [app map]. by rewrite Hnext. }
    exists tail', (map ensure_space
                     (more ++ concat (map sentence_chunks after))).
    rewrite <- Hclosing. split; [by rewrite Hout, Hrem|].
    intros Hsp. split.
    + rewrite Hclosing, Hsp. unfold ensure_space.
      by rewrite !app_assoc, endswith_space_snoc.
    + rewrite <- join_cons, <- Hrem. rewrite <- (Hlead Hsp).
      by rewrite Hsp.
Qed.

Lemma C2_space_token_reused_witness :
  chunk_text (str "a b c d") = [str "a b c "; str " d "]
  ∧ ∃ tail more,
      chunk_text (str "a b c d")
      = ensure_space (str "a b " ++ str "c" ++ str " ")
        :: (str " " ++ tail) :: more
      ∧ leading_spaces (str " " ++ (str " " ++ tail) ++ join more)
        = 1 + leading_spaces (str " " ++ str "d").
Proof.
  split; [by vm_compute|].
  destruct (C2_space_token_reused (str "a b c d") [] (str "a b c d") []
              [str "a"; str " "; str "b"; str " "] (str "c") (str " ")
              [str "d"]) as (_ & _ & _ & _ & tail & more & Hout & Hsp);
    [by vm_compute..|].
  exists tail, more. split; [exact Hout|].
  exact (proj2 (Hsp eq_refl)).
Defined.

End ChunkerClaims.

(** ** The driver *)

Module DriverFacts.
Import Driver DriverSpec.

Lemma frames_app t1 t2 : frames (t1 ++ t2) = frames t1 ++ frames t2.
Proof. unfold frames. apply omap_app. Qed.

Lemma ttfb_stops_app t1 t2 :
  ttfb_stops (t1 ++ t2) = ttfb_stops t1 + ttfb_stops t2.
Proof. unfold ttfb_stops. by rewrite filter_app, length_app. Qed.

Lemma frames_cons a t :
  frames (a :: t)
  = match a with Yield f => f :: frames t | _ => frames t end.
Proof. by destruct a. Qed.

Lemma ttfb_stops_cons a t :
  ttfb_stops (a :: t) = (if is_StopTtfb a then 1 else 0) + ttfb_stops t.
Proof.
  unfold ttfb_stops. rewrite filter_cons.
  destruct (is_StopTtfb a); case_decide; done || congruence.
Qed.

#[local] Arguments frames : simpl never.
#[local] Arguments ttfb_stops : simpl never.

(** The audio loop returns, yields audio frames only and leaves the timer
    alone. *)
Lemma audio_loop_spec self audio offsets :
  snd (audio_loop self audio offsets) = Returns tt
  ∧ Forall (fun f => is_audio f = true)
      (frames (fst (audio_loop self audio offsets)))
  ∧ ttfb_stops (fst (audio_loop self audio offsets)) = 0.
Proof.
  induction offsets as [|i offsets IH]; cbn [audio_loop].
  { split_and!; [done|constructor|done]. }
  destruct (take CHUNK_SIZE (drop i audio)) as [|b chunk].
  { split_and!; [done|constructor|done]. }
  destruct (audio_loop self audio offsets) as [t r].
  cbn in IH. destruct IH as (-> & Hf & Hs). cbn.
  rewrite !frames_cons, !ttfb_stops_cons. cbn.
  split_and!; [done| |done]. by constructor.
Qed.

(** The response loop: audio frames only; the timer is stopped once, on
    the first response, unless [ttfb_sent] is already set. *)
Lemma response_loop_spec env self responses : ∀ ttfb_sent,
  Forall (fun f => is_audio f = true)
    (frames (fst (response_loop env self responses ttfb_sent)))
  ∧ ttfb_stops (fst (response_loop env self responses ttfb_sent))
    = (if ttfb_sent then 0
       else match responses with [] => 0 | _ :: _ => 1 end)
  ∧ (ttfb_sent = false → responses ≠ [] →
     ∃ rest, fst (response_loop env self responses ttfb_sent)
             = StopTtfb :: rest
             ∧ ttfb_stops rest = 0).
Proof.
  induction responses as [|r rs IH]; intros ttfb_sent.
  { cbn. split_and!; [constructor|by destruct ttfb_sent|done]. }
  cbn [response_loop].
  destruct (audio_loop_spec self (audio_content r)
              (range0 (length (audio_content r)) CHUNK_SIZE))
    as (Hr & Hf & Hs).
  destruct (audio_loop self _ _) as [ta ra]. cbn [fst snd] in Hr, Hf, Hs.
  subst ra.
  destruct (IH true) as (Hf' & Hs' & _).
  destruct ttfb_sent; [|destruct (stop_ttfb_metrics env) as [[]|e]]; cbn;
    destruct (response_loop env self rs true) as [tr rr];
    cbn [fst snd] in *;
    rewrite ?ttfb_stops_cons, ?frames_cons, ?frames_app, ?ttfb_stops_app,
      ?Hs, ?Hs'; cbn [is_StopTtfb].
  - split_and!; [by apply Forall_app|done|done].
  - split_and!; [by apply Forall_app|done|].
    intros _ _. eexists. split; [done|].
    by rewrite ttfb_stops_app, Hs, Hs'.
  - split_and!; [constructor|done|]. intros _ _. by eexists.
Qed.

Section WithUnicode.
Context `{PyUnicode}.

(** The body of the [try] block once both metrics calls have returned. *)
Lemma run_tts_body_started env self text :
  start_ttfb_metrics env = Returns tt →
  start_tts_usage_metrics env text = Returns tt →
  run_tts_body env self text
  = match streaming_synthesize env
            (_create_streaming_request_generator self text) with
    | Raises e => (opening self text, Raises e)
    | Returns (responses, stream_end) =>
      match response_loop env self responses false with
      | (t, Raises e) => (opening self text ++ t, Raises e)
      | (t, Returns _) =>
        match stream_end with
        | Some e => (opening self text ++ t, Raises e)
        | None =>
          (opening self text ++ t ++ [Yield TTSStoppedFrame], Returns tt)
        end
      end
    end.
Proof.
  intros H1 H2. unfold run_tts_body, opening. rewrite H1, H2. cbn.
  destruct (streaming_synthesize env _) as [[responses stream_end]|e];
    cbn; [|done].
  destruct (response_loop env self responses false) as [t [b|e]]; cbn;
    [|done].
  destruct stream_end as [e|]; cbn; [|done].
  by rewrite app_nil_r.
Qed.

(** The handler of the [except] clause. *)
Lemma run_tts_caught env self text t e :
  run_tts_body env self text = (t, Raises e) →
  is_Exception e = true →
  run_tts env self text
  = (t ++ [LogException (exn_str e);
           Yield (ErrorFrame
                    (str "Streaming TTS generation error: " ++ exn_str e))],
     Returns tt).
Proof. intros Hb He. unfold run_tts, try_except. by rewrite Hb, He. Qed.

(** The trace of a call that obtained its response stream: the opening,
    the response loop, and an ending that does not touch the timer. *)
Lemma run_tts_trace_started env self text responses stream_end :
  start_ttfb_metrics env = Returns tt →
  start_tts_usage_metrics env text = Returns tt →
  streaming_synthesize env (_create_streaming_request_generator self text)
  = Returns (responses, stream_end) →
  ∃ ending,
    fst (run_tts env self text)
    = opening self text ++ fst (response_loop env self responses false)
      ++ ending
    ∧ ttfb_stops ending = 0.
Proof.
  intros H1 H2 H3. unfold run_tts, try_except.
  rewrite (run_tts_body_started _ _ _ H1 H2), H3.
  destruct (response_loop env self responses false) as [t [b|e]].
  - destruct stream_end as [e|]; [destruct (is_Exception e)|];
      cbn [fst]; rewrite <- ?app_assoc.
    + by eexists.
    + exists []. by rewrite app_nil_r.
    + by eexists.
  - destruct (is_Exception e); cbn [fst]; rewrite <- ?app_assoc.
    + by eexists.
    + exists []. by rewrite app_nil_r.
Qed.

(** A call that does not obtain a response stream leaves the timer
    running. *)
Lemma run_tts_trace_no_stream env self text :
  (∀ stream,
     start_ttfb_metrics env = Returns tt →
     start_tts_usage_metrics env text = Returns tt →
     streaming_synthesize env (_create_streaming_request_generator self text)
     ≠ Returns stream) →
  ttfb_stops (fst (run_tts env self text)) = 0.
Proof.
  unfold run_tts, try_except, run_tts_body. intros Hno.
  destruct (start_ttfb_metrics env) as [[]|e1]; cbn.
  2:{ by destruct (is_Exception e1). }
  destruct (start_tts_usage_metrics env text) as [[]|e2]; cbn.
  2:{ by destruct (is_Exception e2). }
  destruct (streaming_synthesize env _) as [stream|e3]; cbn.
  2:{ by destruct (is_Exception e3). }
  by destruct (Hno stream).
Qed.

End WithUnicode.

End DriverFacts.

Section DriverClaims.
Import Driver DriverSpec DriverFacts.

(** C9: the timer is stopped once when the call receives a response, as
    the first thing after the stream is obtained and before any audio
    frame, and not at all when the call receives no response. *)
Theorem C9_ttfb_stop_once `{PyUnicode} env self text :
  let t := fst (run_tts env self text) in
  match responses_received env self text with
  | [] => ttfb_stops t = 0
  | _ :: _ =>
    ttfb_stops t = 1
    ∧ ∃ rest, t = opening self text ++ StopTtfb :: rest
              ∧ ttfb_stops (opening self text) = 0 ∧ ttfb_stops rest = 0
  end.
Proof.
  cbn zeta.
  destruct (responses_received env self text) as [|r0 rs] eqn:Hrecv.
  - destruct (start_ttfb_metrics env) as [[]|e1] eqn:H1;
      [destruct (start_tts_usage_metrics env text) as [[]|e2] eqn:H2|].
    + destruct (streaming_synthesize env
                  (_create_streaming_request_generator self text))
        as [[responses stream_end]|e3] eqn:H3.
      * assert (responses = []) as ->.
        { unfold responses_received in Hrecv. by rewrite H1, H2, H3 in Hrecv. }
        destruct (run_tts_trace_started _ _ _ _ _ H1 H2 H3)
          as (ending & -> & Hend).
        rewrite !ttfb_stops_app, Hend. done.
      * apply run_tts_trace_no_stream. intros ? _ _. congruence.
    + apply run_tts_trace_no_stream. intros ? _ ?. congruence.
    + apply run_tts_trace_no_stream. intros ? ? _. congruence.
  - unfold responses_received in Hrecv.
    destruct (start_ttfb_metrics env) as [[]|e1] eqn:H1; [|done].
    destruct (start_tts_usage_metrics env text) as [[]|e2] eqn:H2; [|done].
    destruct (streaming_synthesize env
                (_create_streaming_request_generator self text))
      as [[responses stream_end]|e3] eqn:H3; [|done].
    subst responses.
    destruct (run_tts_trace_started _ _ _ _ _ H1 H2 H3)
      as (ending & -> & Hend).
    destruct (response_loop_spec env self (r0 :: rs) false)
      as (_ & Hs & Hfirst).
    destruct (Hfirst eq_refl ltac:(done)) as (rest & Hloop & Hrest).
    rewrite Hloop in *. split.
    + rewrite !ttfb_stops_app, Hs, Hend. done.
    + exists (rest ++ ending). split_and!; [done|done|].
      by rewrite ttfb_stops_app, Hrest, Hend.
Qed.

(** C8, as stated, fails for the two metrics calls, which the [try] block
    runs before it yields the start marker: when the first of them raises,
    the call yields the error event alone.  And the clause catches only
    what derives from [Exception]: anything else propagates. *)
Lemma C8_failure_counterexample :
  frames (fst (run_tts env_metrics_fail sample_service (str "Hi")))
  = [ErrorFrame (str "Streaming TTS generation error: boom")]
  ∧ snd (run_tts env_remote_cancelled sample_service (str "Hi"))
    = Raises cancelled.
Proof. by vm_compute. Qed.

(** C8, amended: when a step of the call raises an exception that
    derives from [Exception], the call yields one error frame with the
    message as its last frame, yields no stop marker, and returns
    normally.  Before the error frame it yields the start marker and then
    the audio frames of the responses received so far when both metrics
    calls have returned, and nothing when one of them raised. *)
Theorem C8_failure_reported `{PyUnicode} env self text t e :
  run_tts_body env self text = (t, Raises e) →
  is_Exception e = true →
  snd (run_tts env self text) = Returns tt
  ∧ ∃ before,
      frames (fst (run_tts env self text))
      = before
        ++ [ErrorFrame (str "Streaming TTS generation error: " ++ exn_str e)]
      ∧ match start_ttfb_metrics env, start_tts_usage_metrics env text with
        | Returns _, Returns _ =>
          ∃ audio, before = TTSStartedFrame :: audio
                   ∧ Forall (fun f => is_audio f = true) audio
        | _, _ => before = []
        end.
Proof.
  intros Hbody He.
  rewrite (run_tts_caught _ _ _ _ _ Hbody He). cbn [fst snd].
  split; [done|]. exists (frames t). split; [by rewrite frames_app|].
  destruct (start_ttfb_metrics env) as [[]|e1] eqn:H1.
  2:{ unfold run_tts_body in Hbody. rewrite H1 in Hbody.
      by inversion Hbody. }
  destruct (start_tts_usage_metrics env text) as [[]|e2] eqn:H2.
  2:{ unfold run_tts_body in Hbody. rewrite H1, H2 in Hbody.
      by inversion Hbody. }
  rewrite (run_tts_body_started _ _ _ H1 H2) in Hbody.
  assert (Hshape : ∃ tl, t = opening self text ++ tl
                         ∧ Forall (fun f => is_audio f = true) (frames tl)).
  { destruct (streaming_synthesize env _) as [[responses stream_end]|e3].
    - destruct (response_loop_spec env self responses false) as (Hf & _).
      destruct (response_loop env self responses false) as [tl [b|e']];
        [destruct stream_end|]; inversion Hbody; subst; by exists tl.
    - inversion Hbody; subst. exists []. by rewrite app_nil_r. }
  destruct Hshape as (tl & -> & Hf).
  exists (frames tl). split; [|done]. by rewrite frames_app.
Qed.

Lemma C8_failure_reported_witness :
  run_tts_body env_remote_fail sample_service (str "Hi")
  = (opening sample_service (str "Hi"), Raises boom)
  ∧ snd (run_tts env_remote_fail sample_service (str "Hi")) = Returns tt
  ∧ ∃ before,
      frames (fst (run_tts env_remote_fail sample_service (str "Hi")))
      = before ++ [ErrorFrame (str "Streaming TTS generation error: boom")]
      ∧ ∃ audio, before = TTSStartedFrame :: audio
                 ∧ Forall (fun f => is_audio f = true) audio.
Proof.
  split; [reflexivity|].
  apply (C8_failure_reported env_remote_fail sample_service (str "Hi")
           (opening sample_service (str "Hi")) boom); reflexivity.
Defined.

(** A run for C9: two responses of 1030 and 10 bytes; the timer is
    stopped once, and three audio frames follow. *)
Example ttfb_stop_once_run :
  let env := {| start_ttfb_metrics := Returns tt;
                start_tts_usage_metrics := fun _ => Returns tt;
                streaming_synthesize := fun _ =>
                  Returns ([ {| audio_content := replicate 1030 Byte.x00 |};
                             {| audio_content := replicate 10 Byte.x00 |} ],
                           None);
                stop_ttfb_metrics := Returns tt |} in
  ttfb_stops (fst (run_tts env sample_service (str "Hi"))) = 1
  ∧ map (fun f => match f with
                  | TTSAudioRawFrame audio _ _ => length audio
                  | _ => 0
                  end)
        (frames (fst (run_tts env sample_service (str "Hi"))))
    = [0; 1024; 6; 10; 0].
Proof. by vm_compute. Qed.

End DriverClaims.

(** ** Requests and settings *)

Section RequestFacts.

Lemma starts_with_app needle post : starts_with needle (needle ++ post) = true.
Proof.
  induction needle as [|a needle IH]; cbn; [done|].
  by rewrite N.eqb_refl, IH.
Qed.

Lemma contains_unfold needle haystack :
  contains needle haystack
  = starts_with needle haystack
    || match haystack with
       | [] => false
       | _ :: haystack' => contains needle haystack'
       end.
Proof. by destruct haystack. Qed.

Lemma contains_infix needle pre post :
  contains needle (pre ++ needle ++ post) = true.
Proof.
  induction pre as [|a pre IH]; rewrite contains_unfold.
  - cbn [app]. by rewrite starts_with_app.
  - cbn [app]. rewrite IH. apply orb_true_r.
Qed.

Lemma ascii_lower_char_ascii c :
  (ascii_lower_char c < 128)%N → (c < 128)%N.
Proof.
  unfold ascii_lower_char.
  destruct ((65 <=? c)%N && (c <=? 90)%N) eqn:E; [|done].
  apply andb_true_iff in E as [_ E%N.leb_le]. lia.
Qed.

Lemma mentions_lower `{PyUnicode} `{!PyUnicodeLaws} marker voice_id :
  Forall (fun c => (c < 128)%N) marker →
  mentions marker voice_id →
  contains marker (lower voice_id) = true.
Proof.
  intros Hascii (pre & u & post & -> & Hu).
  destruct (lower_ascii pre u post) as (pre' & post' & ->).
  - subst marker. rewrite Forall_map in Hascii.
    eapply Forall_impl; [exact Hascii|]. intros c. cbn.
    apply ascii_lower_char_ascii.
  - rewrite Hu. apply contains_infix.
Qed.

(** The SSML text opens with the voice tag, which names the voice and
    prints the language setting. *)
Lemma construct_ssml_voice_tag self text :
  ∃ rest,
    _construct_ssml self text
    = str "<speak><voice name='" ++ _voice_id self ++ str "' language='"
      ++ fmt (language (_settings self)) ++ str "'" ++ rest.
Proof.
  unfold _construct_ssml, attr_if, attr.
  destruct (opt_truthy (gender _)), (opt_truthy (pitch _)),
    (opt_truthy (rate _)), (opt_truthy (volume _)),
    (opt_truthy (emphasis _)), (opt_truthy (google_style _));
    cbn [app join_with]; rewrite <- ?app_assoc; cbn [app str map];
    cbn; eexists; reflexivity.
Qed.

Lemma request_loop_text self text_chunks :
  request_loop self false text_chunks = (map TextInput text_chunks, None).
Proof.
  induction text_chunks as [|chunk rest IH]; [done|].
  cbn [request_loop text_request]. by rewrite IH.
Qed.

Lemma request_loop_ssml self text_chunks :
  text_chunks ≠ [] →
  request_loop self true text_chunks
  = ([], Some (unknown_field "StreamingSynthesisInput" "ssml")).
Proof. by destruct text_chunks. Qed.

Lemma chirp_ascii : Forall (fun c => (c < 128)%N) (str "chirp").
Proof. by repeat constructor. Qed.

Lemma journey_ascii : Forall (fun c => (c < 128)%N) (str "journey").
Proof. by repeat constructor. Qed.

End RequestFacts.

Section RequestClaims.
Import Chunker ChunkerSpec ChunkerFacts Driver DriverSpec DriverFacts.

(** C6: a voice identifier that holds "chirp" in some letter case makes
    the generator yield the configuration request and then every chunk
    as a plain-text input, and end.  A voice identifier whose lower-case
    form holds neither "chirp" nor "journey" makes it yield the
    configuration request alone: asked for the request of the first
    chunk, it builds the SSML and hands it to the input message under
    the keyword [ssml], which the message does not have, and the
    [ValueError] of the constructor ends the generator.  No chunk of such
    a voice is ever emitted as markup. *)
Theorem C6_ssml_request_raises `{PyUnicode} `{!PyUnicodeLaws} self text :
  let generator := _create_streaming_request_generator self text in
  let config := ConfigRequest (language (_settings self)) (_voice_id self) in
  (mentions (str "chirp") (_voice_id self) →
   generator = (config :: map TextInput (chunk_text text), None))
  ∧ (contains (str "chirp") (lower (_voice_id self)) = false →
     contains (str "journey") (lower (_voice_id self)) = false →
     text ≠ [] →
     generator
     = ([config], Some (unknown_field "StreamingSynthesisInput" "ssml"))).
Proof.
  cbn zeta. unfold _create_streaming_request_generator, use_ssml. split.
  - intros Hm. rewrite (mentions_lower (str "chirp") _ chirp_ascii Hm).
    cbn [orb negb]. by rewrite request_loop_text.
  - intros -> -> Htext. cbn [orb negb].
    rewrite request_loop_ssml; [done|]. by apply @chunk_text_nonempty.
Qed.

Lemma C6_ssml_request_raises_witness :
  _create_streaming_request_generator
    (init (str "en-US-Chirp3-HD-Aoede") 24000 default_params) (str "Hi you")
  = ([ConfigRequest (Some (str "en-US")) (str "en-US-Chirp3-HD-Aoede");
      TextInput (str "Hi you ")], None)
  ∧ _create_streaming_request_generator
      (init (str "en-US-Neural2-A") 24000 default_params) (str "Hi you")
    = ([ConfigRequest (Some (str "en-US")) (str "en-US-Neural2-A")],
       Some {| is_Exception := true;
               exn_str :=
                 str "Unknown field for StreamingSynthesisInput: ssml" |}).
Proof.
  split.
  - etrans.
    + apply (proj1 (C6_ssml_request_raises
                      (init (str "en-US-Chirp3-HD-Aoede") 24000 default_params)
                      (str "Hi you"))).
      exists (str "en-US-"), (str "Chirp"), (str "3-HD-Aoede").
      by vm_compute.
    + by vm_compute.
  - etrans.
    + apply (proj2 (C6_ssml_request_raises
                      (init (str "en-US-Neural2-A") 24000 default_params)
                      (str "Hi you"))); [reflexivity|reflexivity|done].
    + by vm_compute.
Defined.

(** C7: a voice identifier that holds "journey" in some letter case makes
    the generator yield every chunk as a plain-text input, as for
    "chirp". *)
Theorem C7_journey_plain_text `{PyUnicode} `{!PyUnicodeLaws} self text :
  mentions (str "journey") (_voice_id self) →
  _create_streaming_request_generator self text
  = (ConfigRequest (language (_settings self)) (_voice_id self)
     :: map TextInput (chunk_text text), None).
Proof.
  intros Hm. unfold _create_streaming_request_generator, use_ssml.
  rewrite (mentions_lower (str "journey") _ journey_ascii Hm).
  rewrite orb_true_r. cbn [negb]. by rewrite request_loop_text.
Qed.

Lemma C7_journey_plain_text_witness :
  mentions (str "journey") (str "en-US-Journey-F")
  ∧ _create_streaming_request_generator
      (init (str "en-US-Journey-F") 24000 default_params) (str "Hi you")
    = ([ConfigRequest (Some (str "en-US")) (str "en-US-Journey-F");
        TextInput (str "Hi you ")], None).
Proof.
  assert (Hm : mentions (str "journey") (str "en-US-Journey-F")).
  { exists (str "en-US-"), (str "Journey"), (str "-F"). by vm_compute. }
  split; [exact Hm|]. etrans.
  - exact (C7_journey_plain_text
             (init (str "en-US-Journey-F") 24000 default_params)
             (str "Hi you") Hm).
  - by vm_compute.
Defined.

(** C10: a language that the table does not list is stored as [None];
    the default ["en-US"] is stored only when [params.language] itself is
    [None].  The stored [None] is the language code of the configuration
    request, and the SSML builder prints it into the voice tag. *)
Theorem C10_unlisted_language `{PyUnicode} voice_id rate_hz params l :
  p_language params = Some l →
  language_map !! l = None →
  let self := init voice_id rate_hz params in
  language (_settings self) = None
  ∧ (∀ text, ∃ inputs ending,
       _create_streaming_request_generator self text
       = (ConfigRequest None voice_id :: inputs, ending))
  ∧ (∀ text, ∃ rest,
       _construct_ssml self text
       = str "<speak><voice name='" ++ voice_id ++ str "' language='None'"
         ++ rest)
  ∧ language_setting None = Some (str "en-US").
Proof.
  intros Hl Hmap self.
  assert (Hnone : language (_settings self) = None).
  { cbn. rewrite Hl. exact Hmap. }
  split_and!; [done| | |done].
  - intros text. unfold _create_streaming_request_generator, yield_then.
    rewrite Hnone. by eexists _, _.
  - intros text. destruct (construct_ssml_voice_tag self text) as (rest & ->).
    rewrite Hnone. exists rest. reflexivity.
Qed.

Lemma C10_unlisted_language_witness :
  language_map !! "ZU"%string = None
  ∧ language (_settings (init (str "en-US-Neural2-A") 24000
                 {| p_pitch := None; p_rate := None; p_volume := None;
                    p_emphasis := None; p_language := Some "ZU"%string;
                    p_gender := None; p_google_style := None;
                    p_chunk_size := 100 |})) = None.
Proof.
  split; [reflexivity|].
  apply (C10_unlisted_language (H := ascii_unicode)
           (str "en-US-Neural2-A") 24000
           {| p_pitch := None; p_rate := None; p_volume := None;
              p_emphasis := None; p_language := Some "ZU"%string;
              p_gender := None; p_google_style := None;
              p_chunk_size := 100 |} "ZU"%string); reflexivity.
Defined.

End RequestClaims.

Section EmptyText.
Import Chunker ChunkerSpec ChunkerFacts Driver DriverSpec DriverFacts.

(** C5, as stated, fails on whitespace: a text of one space yields the
    chunk that holds this space, and the generator sends it to the remote
    as an input request. *)
Lemma C5_whitespace_counterexample :
  chunk_text (str " ") = [str " "]
  ∧ _create_streaming_request_generator
      (init (str "en-US-Chirp3-HD-Aoede") 24000 default_params) (str " ")
    = ([ConfigRequest (Some (str "en-US")) (str "en-US-Chirp3-HD-Aoede");
        TextInput (str " ")], None).
Proof. by vm_compute. Qed.

(** C5, amended: the empty text yields no chunk, and it is the only text
    that does; for it the generator yields the configuration request
    alone, and when the remote answers that request with an empty
    response stream and the metrics calls return, the call yields the
    start marker and the stop marker and nothing else, and returns. *)
Theorem C5_empty_text `{PyUnicode} env self :
  start_ttfb_metrics env = Returns tt →
  start_tts_usage_metrics env [] = Returns tt →
  streaming_synthesize env
    ([ConfigRequest (language (_settings self)) (_voice_id self)], None)
  = Returns ([], None) →
  chunk_text [] = []
  ∧ (∀ text, text ≠ [] → chunk_text text ≠ [])
  ∧ _create_streaming_request_generator self []
    = ([ConfigRequest (language (_settings self)) (_voice_id self)], None)
  ∧ frames (fst (run_tts env self []))
    = [TTSStartedFrame; TTSStoppedFrame]
  ∧ snd (run_tts env self []) = Returns tt.
Proof.
  intros H1 H2 H3.
  assert (Hreq : _create_streaming_request_generator self []
                 = ([ConfigRequest (language (_settings self))
                       (_voice_id self)], None)) by done.
  split_and!; [done|apply @chunk_text_nonempty|done| |];
    unfold run_tts, try_except;
    rewrite (run_tts_body_started _ _ _ H1 H2), Hreq, H3; done.
Qed.

Lemma C5_empty_text_witness :
  start_ttfb_metrics env_silent = Returns tt
  ∧ frames (fst (run_tts env_silent sample_service []))
    = [TTSStartedFrame; TTSStoppedFrame]
  ∧ snd (run_tts env_silent sample_service []) = Returns tt.
Proof.
  split; [reflexivity|].
  apply (C5_empty_text env_silent sample_service); reflexivity.
Defined.

End EmptyText.

(** * Further properties *)

(** ** Sentences and tokens *)

Section SentenceShapes.
Import Chunker ChunkerSpec ChunkerFacts ChunkerShapes.

Lemma split_loop_shape text : ∀ sentences cur,
  Forall (fun x => is_boundary x = false) cur →
  ∃ new, fst (split_loop text sentences cur) = sentences ++ new
    ∧ Forall terminated new
    ∧ Forall (fun x => is_boundary x = false)
        (snd (split_loop text sentences cur)).
Proof.
  induction text as [text IH] using (induction_ltof1 _ (@length N)).
  unfold ltof in IH. intros sentences cur Hcur.
  destruct text as [|c rest]; cbn [split_loop].
  { exists []. cbn. by rewrite app_nil_r. }
  destruct (c =? 10)%N eqn:Hnl.
  { apply N.eqb_eq in Hnl as ->.
    destruct (IH rest ltac:(cbn; lia) (sentences ++ [cur ++ [10%N]]) [])
      as (new & -> & Hnew & Hrest); [constructor|].
    exists ((cur ++ [10%N]) :: new). split_and!; [|constructor|];
      [by rewrite <- app_assoc| |done|done].
    exists cur, 10%N. split_and!; [done|done|by left]. }
  destruct (char_in c sentence_boundaries) eqn:Hb.
  2:{ apply (IH rest ltac:(cbn; lia) sentences (cur ++ [c])).
      apply Forall_app. split; [done|]. by repeat constructor. }
  assert (Hc : c ≠ 10%N) by (by apply N.eqb_neq).
  assert (Hplain : ∃ new,
    fst (split_loop rest (sentences ++ [cur ++ [c]]) []) = sentences ++ new
    ∧ Forall terminated new
    ∧ Forall (fun x => is_boundary x = false)
        (snd (split_loop rest (sentences ++ [cur ++ [c]]) []))).
  { destruct (IH rest ltac:(cbn; lia) (sentences ++ [cur ++ [c]]) [])
      as (new & -> & Hnew & Hrest); [constructor|].
    exists ((cur ++ [c]) :: new). split_and!; [|constructor|];
      [by rewrite <- app_assoc| |done|done].
    exists cur, c. split_and!; [done|done|by left]. }
  destruct rest as [|d rest']; [exact Hplain|].
  destruct (char_in d closing_marks) eqn:Hd; [|exact Hplain].
  destruct (IH rest' ltac:(cbn; lia)
              (sentences ++ [(cur ++ [c]) ++ [d]]) [])
    as (new & -> & Hnew & Hrest); [constructor|].
  exists (((cur ++ [c]) ++ [d]) :: new). split_and!; [|constructor|];
    [by rewrite <- app_assoc| |done|done].
  exists cur, c. split_and!; [done|done|]. right. split; [done|].
  exists d. split; [done|]. by rewrite <- app_assoc.
Qed.

(** X1: the sentences are non-empty and concatenate to the text: the
    splitting pass neither drops, adds nor moves a character. *)
Theorem sentences_partition_text text :
  join (split_sentences text) = text
  ∧ Forall (fun s => s ≠ []) (split_sentences text).
Proof.
  split; [apply split_sentences_join|apply split_sentences_nonempty].
Qed.

(** X2: every sentence but possibly the last is a stretch without
    terminator followed by one terminator and, unless that terminator is
    the newline, at most one closing mark; a last sentence that the text
    leaves open holds no terminator.  So a newline is always the last
    character of its sentence, and a terminator is never absorbed into the
    middle of one. *)
Theorem sentences_shape text :
  ∃ closed open,
    split_sentences text = closed ++ open
    ∧ Forall terminated closed
    ∧ (open = [] ∨ ∃ s, open = [s] ∧ unterminated s).
Proof.
  unfold split_sentences.
  destruct (split_loop_shape text [] []) as (new & E & Hnew & Hcur);
    [constructor|].
  destruct (split_loop text [] []) as [ss cur]. cbn in E, Hcur. subst ss.
  destruct cur as [|c cur]; cbn [truthy].
  - exists new, []. rewrite app_nil_r. auto.
  - exists new, [c :: cur]. split_and!; [done..|].
    right. exists (c :: cur). by split_and!.
Qed.

End SentenceShapes.

Section TokenShapes.
Import Chunker ChunkerSpec ChunkerFacts ChunkerShapes.
Context `{PyUnicode}.

(** X3: tokenizing a sentence loses no character, and its tokens are
    non-empty runs of word characters or single other characters, with
    no two word tokens side by side (so every word token is a maximal
    run). *)
Theorem tokenize_round_trip sentence :
  join (tokenize sentence) = sentence ∧ wf_tokens (tokenize sentence).
Proof. destruct (tokenize_spec sentence). done. Qed.

(** X4: on a well-formed token list, tokenizing the joined text gives the
    list back. *)
Theorem tokenize_of_join tokens :
  wf_tokens tokens → tokenize (join tokens) = tokens.
Proof. apply tokenize_join. Qed.

End TokenShapes.

Lemma tokenize_of_join_witness :
  ChunkerSpec.wf_tokens [str "it's"; str ","; str " "; str "ok"]
  ∧ Chunker.tokenize (join [str "it's"; str ","; str " "; str "ok"])
    = [str "it's"; str ","; str " "; str "ok"].
Proof.
  assert (Hwf : ChunkerSpec.wf_tokens
                  [str "it's"; str ","; str " "; str "ok"]).
  { cbn. split_and!; try done.
    - by left.
    - right. by exists 44%N.
    - right. by exists 32%N.
    - by left. }
  split; [exact Hwf|].
  exact (tokenize_of_join [str "it's"; str ","; str " "; str "ok"] Hwf).
Defined.

(** ** What the chunker keeps of the text *)

Section ChunkerKeeps.
Import Chunker ChunkerSpec ChunkerFacts ChunkerShapes.
Context `{PyUnicode}.

Lemma ensure_space_sublist chunk : chunk `sublist_of` ensure_space chunk.
Proof.
  unfold ensure_space. destruct (endswith_space chunk); [done|].
  by apply sublist_inserts_r.
Qed.

Lemma emit_sublist todo : ∀ cur wc,
  join cur ++ join todo `sublist_of` join (emit cur wc todo).
Proof.
  induction todo as [|token todo' IH]; intros cur wc.
  { cbn [emit]. change (join []) with (@nil N). rewrite app_nil_r.
    destruct cur as [|t cur]; [done|].
    change (join [ensure_space (join (t :: cur))])
      with (ensure_space (join (t :: cur)) ++ []).
    rewrite app_nil_r. apply ensure_space_sublist. }
  assert (Hin : join cur ++ join (token :: todo')
                = join (cur ++ [token]) ++ join todo').
  { rewrite join_app, join_cons. cbn. by rewrite app_nil_r, <- !app_assoc. }
  rewrite Hin. cbn [emit].
  destruct (_ =? MAX_WORDS_PER_CHUNK); [|apply IH].
  specialize (IH [] 0). cbn [join concat app] in IH. fold (join todo') in IH.
  destruct (str_isspace token); [rewrite join_cons; by apply sublist_app|].
  destruct (str_isspace (hd [] todo')); rewrite join_cons.
  - rewrite (join_app _ [hd [] todo']). apply sublist_app; [|done].
    by apply sublist_inserts_r.
  - apply sublist_app; [|done]. by apply sublist_inserts_r.
Qed.

Lemma map_ensure_space_sublist (l : list pystr) :
  join l `sublist_of` join (map ensure_space l).
Proof.
  induction l as [|c l IH]; [done|]. cbn [map]. rewrite !join_cons.
  apply sublist_app; [apply ensure_space_sublist|done].
Qed.

Lemma sentences_sublist (ss : list pystr) :
  join ss `sublist_of` join (concat (map sentence_chunks ss)).
Proof.
  induction ss as [|s ss IH]; [done|]. cbn [map concat].
  rewrite join_cons, join_app. apply sublist_app; [|done].
  destruct (tokenize_spec s) as [_ Hj]. rewrite <- Hj at 1.
  apply (emit_sublist (tokenize s) [] 0).
Qed.

(** X5: the text is a subsequence of the concatenated chunks: the chunker
    only inserts characters; it never drops one and never changes their
    order. *)
Theorem chunks_keep_text text :
  text `sublist_of` join (chunk_text text).
Proof.
  rewrite chunk_text_emit. etrans; [|apply map_ensure_space_sublist].
  rewrite <- (split_sentences_join text) at 1. apply sentences_sublist.
Qed.

Lemma visible_app a b : visible (a ++ b) = visible a ++ visible b.
Proof. apply List.filter_app. Qed.

Lemma visible_spaces t : forallb isspace t = true → visible t = [].
Proof.
  induction t as [|c t IH]; cbn; [done|].
  intros [-> Ht]%andb_true_iff. cbn. auto.
Qed.

Lemma visible_pad `{!PyUnicodeLaws} : visible (str " ") = [].
Proof. cbn. by rewrite space_isspace. Qed.

Lemma visible_ensure_space `{!PyUnicodeLaws} chunk :
  visible (ensure_space chunk) = visible chunk.
Proof.
  unfold ensure_space. destruct (endswith_space chunk); [done|].
  by rewrite visible_app, visible_pad, app_nil_r.
Qed.

Lemma emit_visible `{!PyUnicodeLaws} todo : ∀ cur wc,
  visible (join (emit cur wc todo)) = visible (join cur ++ join todo).
Proof.
  induction todo as [|token todo' IH]; intros cur wc.
  { cbn [emit]. change (join []) with (@nil N). rewrite app_nil_r.
    destruct cur as [|t cur]; [done|].
    change (join [ensure_space (join (t :: cur))])
      with (ensure_space (join (t :: cur)) ++ []).
    rewrite app_nil_r. apply visible_ensure_space. }
  assert (Hin : join cur ++ join (token :: todo')
                = join (cur ++ [token]) ++ join todo').
  { rewrite join_app, join_cons. cbn. by rewrite app_nil_r, <- !app_assoc. }
  rewrite Hin. cbn [emit].
  destruct (_ =? MAX_WORDS_PER_CHUNK); [|apply IH].
  specialize (IH [] 0). cbn [join concat app] in IH. fold (join todo') in IH.
  rewrite (visible_app (join (cur ++ [token]))), <- IH.
  destruct (str_isspace token); [by rewrite join_cons, visible_app|].
  destruct (str_isspace (hd [] todo')) eqn:Hnext;
    rewrite join_cons, visible_app; f_equal.
  - rewrite (join_app _ [hd [] todo']), visible_app.
    apply andb_true_iff in Hnext as [_ Hnext]. cbn [join concat].
    by rewrite app_nil_r, (visible_spaces _ Hnext), app_nil_r.
  - by rewrite visible_app, visible_pad, app_nil_r.
Qed.

(** X6: the characters that are not whitespace are the same, in the same
    order, in the text and in the concatenated chunks: what the chunker
    inserts is whitespace only. *)
Theorem chunks_change_whitespace_only `{!PyUnicodeLaws} text :
  visible (join (chunk_text text)) = visible text.
Proof.
  rewrite chunk_text_emit.
  rewrite <- (split_sentences_join text) at 2.
  induction (split_sentences text) as [|s ss IH]; [done|].
  cbn [map concat]. rewrite map_app, join_app, join_cons, !visible_app, IH.
  f_equal. destruct (tokenize_spec s) as [_ Hj].
  pose proof (emit_visible (tokenize s) [] 0) as E.
  change (join [] ++ join (tokenize s)) with (join (tokenize s)) in E.
  rewrite Hj in E. rewrite <- E. unfold sentence_chunks.
  clear E. induction (emit [] 0 (tokenize s)) as [|c cs IHc]; [done|].
  cbn [map]. rewrite !join_cons, !visible_app, IHc.
  by rewrite visible_ensure_space.
Qed.

End ChunkerKeeps.

Lemma chunks_change_whitespace_only_witness :
  ChunkerShapes.visible (join (Chunker.chunk_text (str "a b c d. e")))
  = str "abcd.e".
Proof.
  etrans.
  - apply (chunks_change_whitespace_only (str "a b c d. e")).
  - by vm_compute.
Defined.

(** ** How the grouping loop fills chunks *)

Section ChunkerFills.
Import Chunker ChunkerSpec ChunkerFacts ChunkerShapes.
Context `{PyUnicode}.

Lemma Forall_removelast_cons {A} (P : A → Prop) x l :
  P x → Forall P (removelast l) → Forall P (removelast (x :: l)).
Proof. intros Hx Hl. destruct l; cbn; [constructor|by constructor]. Qed.

Lemma chunk_exact_real_words n chunk :
  chunk_exact n chunk → real_words chunk = n.
Proof.
  intros (seg & -> & Hwf & <-). unfold real_words. by rewrite tokenize_join.
Qed.

Lemma emit_full `{!PyUnicodeLaws} todo : ∀ cur wc,
  wf_tokens (cur ++ todo) → count_real_words cur = wc →
  wc < MAX_WORDS_PER_CHUNK →
  Forall (chunk_exact MAX_WORDS_PER_CHUNK) (removelast (emit cur wc todo)).
Proof.
  unfold MAX_WORDS_PER_CHUNK.
  induction todo as [|token todo' IH]; intros cur wc Hwf Hcount Hwc.
  { cbn. destruct cur; constructor. }
  assert (Hwf' : wf_tokens ((cur ++ [token]) ++ todo'))
    by (by rewrite <- app_assoc).
  destruct (wf_tokens_app_inv _ _ Hwf') as [Hcur' Htodo'].
  assert (Hcount' : count_real_words (cur ++ [token])
                    = if is_real_word token then wc + 1 else wc).
  { rewrite count_real_words_app, count_real_words_one, Hcount.
    destruct (is_real_word token); lia. }
  cbn [emit]. unfold MAX_WORDS_PER_CHUNK.
  set (wc' := if is_real_word token then wc + 1 else wc) in *.
  assert (wc' ≤ 3) by (subst wc'; destruct (is_real_word token); lia).
  destruct (wc' =? 3) eqn:Hclose.
  2:{ apply Nat.eqb_neq in Hclose. apply IH; [done..|lia]. }
  apply Nat.eqb_eq in Hclose.
  assert (Hrest : Forall (chunk_exact 3) (removelast (emit [] 0 todo'))).
  { apply IH; [done|done|lia]. }
  destruct (str_isspace token).
  { apply Forall_removelast_cons; [|done].
    exists (cur ++ [token]). split_and!; [done..|lia]. }
  destruct (str_isspace (hd [] todo')) eqn:Hnext.
  - apply Forall_removelast_cons; [|done].
    destruct todo' as [|s todo'']; [done|].
    cbn [hd] in *. exists ((cur ++ [token]) ++ [s]). split_and!; [done| |].
    + replace ((cur ++ [token]) ++ s :: todo'')
        with (((cur ++ [token]) ++ [s]) ++ todo'') in Hwf'
        by (by rewrite <- !app_assoc).
      by apply wf_tokens_app_inv in Hwf' as [? _].
    + rewrite count_real_words_app, count_real_words_one, Hcount'.
      rewrite (space_not_real_word _ Hnext). lia.
  - apply Forall_removelast_cons; [|done].
    exists ((cur ++ [token]) ++ [[32%N]]). split_and!.
    + by rewrite (join_app _ [[32%N]]).
    + apply wf_tokens_snoc; [done|]. right. exists 32%N.
      split; [done|]. apply space_not_word_char.
    + rewrite count_real_words_app, count_real_words_one, Hcount'.
      rewrite space_not_real_word; [lia|].
      unfold str_isspace. cbn. by rewrite space_isspace.
Qed.

(** X7: of the chunks one sentence adds, every one but the last holds
    exactly [MAX_WORDS_PER_CHUNK] real words: only the chunk that ends a
    sentence can be short. *)
Theorem sentence_chunks_are_full `{!PyUnicodeLaws} chunks0 sentence :
  ∃ new,
    chunk_sentence chunks0 sentence = chunks0 ++ new
    ∧ Forall (fun chunk => real_words chunk = MAX_WORDS_PER_CHUNK)
        (removelast new).
Proof.
  exists (sentence_chunks sentence). split; [apply chunk_sentence_emit|].
  destruct (tokenize_spec sentence) as [Hwf _].
  eapply Forall_impl;
    [apply (emit_full (tokenize sentence) [] 0);
     [done|done|unfold MAX_WORDS_PER_CHUNK; lia]|].
  intros chunk. apply chunk_exact_real_words.
Qed.

Lemma emit_length todo : ∀ cur wc,
  wc < MAX_WORDS_PER_CHUNK →
  (wc + count_real_words todo) / MAX_WORDS_PER_CHUNK
  ≤ length (emit cur wc todo)
  ≤ (wc + count_real_words todo) / MAX_WORDS_PER_CHUNK + 1.
Proof.
  unfold MAX_WORDS_PER_CHUNK.
  induction todo as [|token todo' IH]; intros cur wc Hwc.
  { cbn [emit]. replace (wc + count_real_words []) with wc
      by (unfold count_real_words; cbn; lia).
    rewrite Nat.div_small by lia. destruct cur; cbn; lia. }
  change (token :: todo') with ([token] ++ todo').
  rewrite count_real_words_app, count_real_words_one.
  cbn [app emit]. unfold MAX_WORDS_PER_CHUNK.
  destruct (is_real_word token).
  2:{ rewrite (proj2 (Nat.eqb_neq wc 3)) by lia.
      replace (wc + (0 + count_real_words todo'))
        with (wc + count_real_words todo') by lia.
      by apply IH. }
  destruct (wc + 1 =? 3) eqn:Hclose.
  2:{ apply Nat.eqb_neq in Hclose.
      replace (wc + (1 + count_real_words todo'))
        with (wc + 1 + count_real_words todo') by lia.
      apply IH. lia. }
  apply Nat.eqb_eq in Hclose.
  replace (wc + (1 + count_real_words todo'))
    with (1 * 3 + count_real_words todo') by lia.
  rewrite Nat.div_add_l by lia.
  specialize (IH [] 0 ltac:(lia)). cbn [Nat.add] in IH.
  destruct (str_isspace token); [cbn [length]; lia|].
  destruct (str_isspace (hd [] todo')); cbn [length]; lia.
Qed.

(** X8: a sentence with [n] real words adds [n / MAX_WORDS_PER_CHUNK]
    chunks, or one more. *)
Theorem sentence_chunk_count chunks0 sentence :
  ∃ new,
    chunk_sentence chunks0 sentence = chunks0 ++ new
    ∧ real_words sentence / MAX_WORDS_PER_CHUNK
      ≤ length new
      ≤ real_words sentence / MAX_WORDS_PER_CHUNK + 1.
Proof.
  exists (sentence_chunks sentence). split; [apply chunk_sentence_emit|].
  apply (emit_length (tokenize sentence) [] 0).
  unfold MAX_WORDS_PER_CHUNK. lia.
Qed.

(** X9: the loop body keeps the word count below [MAX_WORDS_PER_CHUNK],
    and entered with such a count it never closes a chunk on a whitespace
    token: the token is appended and nothing else changes.  The branch
    that tests [token.isspace()] after the count has reached the bound is
    therefore never taken. *)
Theorem loop_body_word_count tokens i token st :
  word_count st < MAX_WORDS_PER_CHUNK →
  word_count (fst (loop_body tokens i token st)) < MAX_WORDS_PER_CHUNK
  ∧ (str_isspace token = true →
     loop_body tokens i token st
     = ({| chunks := chunks st;
           current_chunk := current_chunk st ++ [token];
           word_count := word_count st |}, i)).
Proof.
  unfold MAX_WORDS_PER_CHUNK. intros Hwc. split.
  - unfold loop_body, MAX_WORDS_PER_CHUNK.
    destruct (is_real_word token).
    + destruct (word_count st + 1 =? 3) eqn:E.
      * destruct (str_isspace token); [cbn; lia|].
        destruct (_ && _); cbn; lia.
      * apply Nat.eqb_neq in E. cbn. lia.
    + rewrite (proj2 (Nat.eqb_neq (word_count st) 3)) by lia. cbn. lia.
  - intros Hs. unfold loop_body, MAX_WORDS_PER_CHUNK.
    rewrite (space_not_real_word _ Hs).
    by rewrite (proj2 (Nat.eqb_neq (word_count st) 3)) by lia.
Qed.

End ChunkerFills.

Lemma sentence_chunks_are_full_witness :
  Chunker.chunk_sentence [] (str "one two three four five six seven.")
  = [str "one two three "; str " four five six "; str " seven. "]
  ∧ ∃ new,
      Chunker.chunk_sentence [] (str "one two three four five six seven.")
      = [] ++ new
      ∧ Forall (fun chunk => ChunkerSpec.real_words chunk
                             = Chunker.MAX_WORDS_PER_CHUNK)
          (removelast new).
Proof.
  split; [by vm_compute|].
  apply (sentence_chunks_are_full []
           (str "one two three four five six seven.")).
Defined.

Lemma loop_body_word_count_witness :
  Chunker.word_count
    (fst (Chunker.loop_body [str "a"; str " "] 1 (str " ")
            {| Chunker.chunks := []; Chunker.current_chunk := [str "a"];
               Chunker.word_count := 1 |})) < Chunker.MAX_WORDS_PER_CHUNK
  ∧ Chunker.loop_body [str "a"; str " "] 1 (str " ")
      {| Chunker.chunks := []; Chunker.current_chunk := [str "a"];
         Chunker.word_count := 1 |}
    = ({| Chunker.chunks := [];
          Chunker.current_chunk := [str "a"; str " "];
          Chunker.word_count := 1 |}, 1).
Proof.
  destruct (loop_body_word_count [str "a"; str " "] 1 (str " ")
              {| Chunker.chunks := []; Chunker.current_chunk := [str "a"];
                 Chunker.word_count := 1 |}) as [Hlt Hsp].
  - unfold Chunker.MAX_WORDS_PER_CHUNK. cbn. lia.
  - split; [exact Hlt|]. apply Hsp. reflexivity.
Defined.

(** ** The SSML builder, the requests and the language setting *)

Section SsmlFacts.
Import SsmlSpec.

(** X10: the SSML text is the text of the chunk, unchanged, inside the
    opening tags [speak], [voice] and, for the settings that are present
    and not empty, [prosody], [emphasis] and [google:style], in this
    order, and followed by their closing tags in the reverse order.  The
    tags do not depend on the text. *)
Theorem construct_ssml_nesting self text :
  _construct_ssml self text
  = concat (map open_tag (ssml_tags self)) ++ text
    ++ concat (map close_tag (rev (ssml_tags self))).
Proof.
  unfold _construct_ssml, ssml_tags, attr_if, optional.
  destruct (opt_truthy (gender _)), (opt_truthy (pitch _)),
    (opt_truthy (rate _)), (opt_truthy (volume _)),
    (opt_truthy (emphasis _)), (opt_truthy (google_style _));
    cbn [app join_with orb rev map concat];
    unfold open_tag, close_tag, attr; cbn [fst snd];
    rewrite <- ?app_assoc; cbn; reflexivity.
Qed.

(** X11: the language setting that [__init__] stores is, when it is not
    [None], a locale tag of two or three lower-case letters, a hyphen and
    two upper-case letters; in particular it is never the empty
    string. *)
Theorem stored_language_is_locale voice_id rate_hz params v :
  language (_settings (init voice_id rate_hz params)) = Some v →
  is_locale v = true.
Proof.
  cbn. unfold language_setting, language_to_google_tts_language.
  destruct (p_language params) as [l|]; [|by intros [= <-]].
  unfold language_map. intros Hl%elem_of_list_to_map_2.
  apply list_elem_of_In in Hl.
  match type of Hl with
  | In _ ?table =>
    assert (Hall : forallb (fun kv => is_locale (snd kv)) table = true)
      by (by vm_compute)
  end.
  rewrite forallb_forall in Hall. exact (Hall _ Hl).
Qed.

End SsmlFacts.

Lemma stored_language_is_locale_witness :
  language (_settings (init (str "en-GB-Neural2-A") 24000
              {| p_pitch := None; p_rate := None; p_volume := None;
                 p_emphasis := None; p_language := Some "EN_GB"%string;
                 p_gender := None; p_google_style := None;
                 p_chunk_size := 100 |})) = Some (str "en-GB")
  ∧ SsmlSpec.is_locale (str "en-GB") = true.
Proof.
  assert (Hl : language (_settings (init (str "en-GB-Neural2-A") 24000
              {| p_pitch := None; p_rate := None; p_volume := None;
                 p_emphasis := None; p_language := Some "EN_GB"%string;
                 p_gender := None; p_google_style := None;
                 p_chunk_size := 100 |})) = Some (str "en-GB"))
    by reflexivity.
  split; [exact Hl|].
  exact (stored_language_is_locale _ _ _ _ Hl).
Defined.

(** ** Creating the client *)

Section ClientFacts.
Import Client.
Context {Json Creds TextToSpeechClient : Type}.
Implicit Types env : Env Json Creds TextToSpeechClient.

(** X12: [_create_client] uses one source of credentials only: the JSON
    string when it is given and not empty, else the file path when it is
    given and not empty, else the default credentials.  Its calls are the
    calls planned for that source, cut off at the first one that raises
    (or, for the default credentials, fails); it never falls back to
    another source.  A run that returns a client made all the planned
    calls. *)
Theorem create_client_one_source env credentials credentials_path :
  match snd (_create_client env credentials credentials_path) with
  | Ok _ =>
    fst (_create_client env credentials credentials_path)
    = planned_calls credentials credentials_path
  | Err _ =>
    fst (_create_client env credentials credentials_path)
    `prefix_of` planned_calls credentials credentials_path
  end.
Proof.
  unfold _create_client, find_creds, planned_calls.
  destruct (opt_truthy credentials); [|destruct (opt_truthy credentials_path)].
  - destruct (json_loads env _) as [j|e]; cbn; [|by eexists].
    destruct (from_service_account_info env j) as [c|e]; cbn;
      [|by eexists [_]].
    by destruct (new_client env c).
  - destruct (from_service_account_file env _) as [c|e]; cbn; [|by eexists].
    by destruct (new_client env c).
  - destruct (default env) as [[c p]|e]; cbn.
    { by destruct (new_client env c). }
    destruct (is_GoogleAuthError e); cbn; by eexists.
Qed.

(** X13: with no JSON string and no file path (or empty ones), a
    [GoogleAuthError] of the default credentials is swallowed and the
    call raises the [ValueError] of the source without building a client;
    any other exception of the default credentials reaches the caller
    unchanged. *)
Theorem create_client_no_credentials env credentials credentials_path e :
  opt_truthy credentials = false →
  opt_truthy credentials_path = false →
  default env = Err e →
  _create_client env credentials credentials_path
  = ([Default], Err (if is_GoogleAuthError e then no_credentials else e)).
Proof.
  intros Hc Hp He. unfold _create_client, find_creds.
  rewrite Hc, Hp, He. by destruct (is_GoogleAuthError e).
Qed.

End ClientFacts.

Lemma create_client_no_credentials_witness :
  Client._create_client
    {| Client.json_loads := fun _ => Client.Ok tt;
       Client.from_service_account_info := fun _ => Client.Ok tt;
       Client.from_service_account_file := fun _ => Client.Ok tt;
       Client.default :=
         Client.Err {| Client.is_GoogleAuthError := true;
                       Client.exc_str := str "no default credentials" |};
       Client.new_client := fun _ => Client.Ok tt |}
    (Some []) None
  = ([Client.Default], Client.Err Client.no_credentials).
Proof.
  apply (create_client_no_credentials (Json := unit) (Creds := unit)
           (TextToSpeechClient := unit) _ (Some []) None
           {| Client.is_GoogleAuthError := true;
              Client.exc_str := str "no default credentials" |});
    reflexivity.
Defined.

(** ** The frames and calls of [run_tts] *)

Module DriverMore.
Import Driver DriverSpec DriverFacts DriverShapes.

Lemma remote_calls_app t1 t2 :
  remote_calls (t1 ++ t2) = remote_calls t1 ++ remote_calls t2.
Proof. apply omap_app. Qed.

Lemma usage_calls_app t1 t2 :
  usage_calls (t1 ++ t2) = usage_calls t1 ++ usage_calls t2.
Proof. apply omap_app. Qed.

Lemma sleeps_app t1 t2 : sleeps (t1 ++ t2) = sleeps t1 + sleeps t2.
Proof. unfold sleeps. by rewrite List.filter_app, length_app. Qed.

#[local] Arguments frames : simpl never.
#[local] Arguments remote_calls : simpl never.
#[local] Arguments usage_calls : simpl never.
#[local] Arguments sleeps : simpl never.

Lemma audio_only_nil self : audio_only self [].
Proof. by repeat split. Qed.

Lemma audio_only_app self t1 t2 :
  audio_only self t1 → audio_only self t2 → audio_only self (t1 ++ t2).
Proof.
  intros (F1 & R1 & U1 & S1) (F2 & R2 & U2 & S2). unfold audio_only.
  rewrite frames_app, remote_calls_app, usage_calls_app, sleeps_app,
    length_app, R1, R2, U1, U2, S1, S2.
  split_and!; [by apply Forall_app|done..].
Qed.

Lemma audio_only_frame self chunk :
  0 < length chunk ≤ CHUNK_SIZE →
  audio_only self [Yield (TTSAudioRawFrame chunk (sample_rate self) 1); Sleep].
Proof.
  intros Hlen. split_and!; [|done..].
  rewrite !frames_cons. constructor; [|constructor].
  unfold audio_ok. split; [exact Hlen|done].
Qed.

Lemma audio_ok_is_audio self f : audio_ok self f → is_audio f = true.
Proof. by destruct f. Qed.

(** The audio loop over the offsets [j * CHUNK_SIZE], ...,
    [(j + n - 1) * CHUNK_SIZE], all of them inside the audio. *)
Lemma audio_loop_chunks self audio n : ∀ j,
  n = 0 ∨ (j + n - 1) * CHUNK_SIZE < length audio →
  let r := audio_loop self audio
             (map (fun k => k * CHUNK_SIZE) (seq j n)) in
  snd r = Returns tt
  ∧ audio_only self (fst r)
  ∧ concat (map payload (frames (fst r)))
    = take (n * CHUNK_SIZE) (drop (j * CHUNK_SIZE) audio).
Proof.
  induction n as [|n IH]; intros j Hin; cbn zeta.
  { cbn. split_and!; [done|apply audio_only_nil|done]. }
  cbn [seq map audio_loop].
  assert (Hj : j * CHUNK_SIZE < length audio).
  { destruct Hin as [|Hin]; [done|]. unfold CHUNK_SIZE in *. lia. }
  assert (Hlen : 0 < length (take CHUNK_SIZE (drop (j * CHUNK_SIZE) audio))
                 ≤ CHUNK_SIZE).
  { rewrite length_take, length_drop. unfold CHUNK_SIZE in *. lia. }
  destruct (IH (S j)) as (Hr & Honly & Hcat).
  { destruct n; [by left|right]. unfold CHUNK_SIZE in *. lia. }
  destruct (take CHUNK_SIZE (drop (j * CHUNK_SIZE) audio))
    as [|b chunk] eqn:Hchunk; [cbn in Hlen; lia|].
  destruct (audio_loop self audio _) as [t r]. cbn [fst snd] in *. subst r.
  cbn. split_and!; [done| |].
  - apply (audio_only_app self [_; _] t); [|done].
    by apply audio_only_frame.
  - rewrite !frames_cons. cbn [map concat payload]. rewrite Hcat, <- Hchunk.
    replace (S j * CHUNK_SIZE) with (j * CHUNK_SIZE + CHUNK_SIZE) by lia.
    by rewrite <- drop_drop, take_take_drop.
Qed.

(** The audio loop as [run_tts] runs it: the frames carry the audio of the
    response, cut into pieces. *)
Lemma audio_loop_whole self audio :
  let r := audio_loop self audio (range0 (length audio) CHUNK_SIZE) in
  snd r = Returns tt
  ∧ audio_only self (fst r)
  ∧ concat (map payload (frames (fst r))) = audio.
Proof.
  cbn zeta. unfold range0.
  set (n := (length audio + CHUNK_SIZE - 1) / CHUNK_SIZE).
  assert (Hn : (n = 0 ∨ (0 + n - 1) * CHUNK_SIZE < length audio)
               ∧ length audio ≤ n * CHUNK_SIZE).
  { subst n. unfold CHUNK_SIZE.
    pose proof (Nat.div_mod_eq (length audio + 1024 - 1) 1024) as E.
    pose proof (Nat.mod_upper_bound (length audio + 1024 - 1) 1024) as B.
    set (q := (length audio + 1024 - 1) / 1024) in *.
    set (m := (length audio + 1024 - 1) mod 1024) in *.
    split; [destruct q; [by left|right]|]; lia. }
  destruct Hn as [Hin Hge].
  destruct (audio_loop_chunks self audio n 0 Hin) as (Hr & Honly & Hcat).
  split_and!; [done|done|].
  rewrite Hcat. cbn [Nat.mul drop]. by apply take_ge.
Qed.

Lemma response_loop_frames env self responses : ∀ ttfb_sent,
  let r := response_loop env self responses ttfb_sent in
  audio_only self (fst r)
  ∧ (∀ b, snd r = Returns b →
     concat (map payload (frames (fst r)))
     = concat (map audio_content responses))
  ∧ (ttfb_sent = true ∨ stop_ttfb_metrics env = Returns tt →
     ∃ b, snd r = Returns b).
Proof.
  induction responses as [|resp rs IH]; intros ttfb_sent; cbn zeta.
  { cbn. split_and!; [apply audio_only_nil|done|by eexists]. }
  cbn [response_loop].
  destruct (audio_loop_whole self (audio_content resp)) as (Hr & Honly & Hcat).
  destruct (audio_loop self _ _) as [ta ra]. cbn [fst snd] in *. subst ra.
  destruct (IH true) as (Honly' & Hcat' & Hret').
  assert (Hstop : audio_only self [StopTtfb]) by (by repeat split).
  destruct ttfb_sent; [|destruct (stop_ttfb_metrics env) as [[]|e]]; cbn;
    destruct (response_loop env self rs true) as [tr rr];
    cbn [fst snd] in *.
  - split_and!.
    + by apply audio_only_app.
    + intros b ->. rewrite frames_app, map_app, concat_app, Hcat.
      by rewrite (Hcat' _ eq_refl).
    + intros _. apply Hret'. by left.
  - split_and!.
    + apply (audio_only_app self [StopTtfb]); [done|].
      by apply audio_only_app.
    + intros b ->. rewrite frames_cons, frames_app, map_app, concat_app, Hcat.
      by rewrite (Hcat' _ eq_refl).
    + intros _. apply Hret'. by left.
  - split_and!; [done|done|]. by intros [|].
Qed.

Section WithUnicode.
Context `{PyUnicode}.

(** [run_tts], case by case. *)
Lemma run_tts_cases env self text :
  run_tts env self text
  = match start_ttfb_metrics env with
    | Raises e => handled [StartTtfb] e
    | Returns _ =>
      match start_tts_usage_metrics env text with
      | Raises e => handled [StartTtfb; StartUsage text] e
      | Returns _ =>
        match streaming_synthesize env
                (_create_streaming_request_generator self text) with
        | Raises e => handled (opening self text) e
        | Returns (responses, stream_end) =>
          match response_loop env self responses false with
          | (t, Raises e) => handled (opening self text ++ t) e
          | (t, Returns _) =>
            match stream_end with
            | Some e => handled (opening self text ++ t) e
            | None =>
              (opening self text ++ t ++ [Yield TTSStoppedFrame], Returns tt)
            end
          end
        end
      end
    end.
Proof.
  unfold run_tts, try_except, handled.
  destruct (start_ttfb_metrics env) as [[]|e1] eqn:H1.
  2:{ unfold run_tts_body. rewrite H1. cbn. by destruct (is_Exception e1). }
  destruct (start_tts_usage_metrics env text) as [[]|e2] eqn:H2.
  2:{ unfold run_tts_body. rewrite H1, H2. cbn.
      by destruct (is_Exception e2). }
  rewrite (run_tts_body_started _ _ _ H1 H2).
  destruct (streaming_synthesize env _) as [[responses stream_end]|e3];
    [|by destruct (is_Exception e3)].
  destruct (response_loop env self responses false) as [t [b|e]];
    [destruct stream_end as [e|]|]; try done; by destruct (is_Exception e).
Qed.

(** Every run is a head, a stretch of audio and an ending: the stop
    marker, the error frame, or nothing when an exception leaves the
    call. *)
Lemma run_tts_decompose env self text :
  ∃ tl ending,
    fst (run_tts env self text) = head_actions env self text ++ tl ++ ending
    ∧ audio_only self tl
    ∧ (metrics_return env text = false → tl = [])
    ∧ (ending = [Yield TTSStoppedFrame]
       ∧ snd (run_tts env self text) = Returns tt
       ∧ metrics_return env text = true
       ∨ (∃ e, is_Exception e = true
               ∧ ending
                 = [LogException (exn_str e);
                    Yield (ErrorFrame
                      (str "Streaming TTS generation error: " ++ exn_str e))]
               ∧ snd (run_tts env self text) = Returns tt)
       ∨ (∃ e, is_Exception e = false ∧ ending = []
               ∧ snd (run_tts env self text) = Raises e)).
Proof.
  remember (metrics_return env text) as mr eqn:Hmr.
  assert (Hcase : ∀ hd tl e,
    audio_only self tl →
    (mr = false → tl = []) →
    ∃ tl' ending,
      fst (handled (hd ++ tl) e) = hd ++ tl' ++ ending
      ∧ audio_only self tl'
      ∧ (mr = false → tl' = [])
      ∧ (ending = [Yield TTSStoppedFrame]
         ∧ snd (handled (hd ++ tl) e) = Returns tt
         ∧ mr = true
         ∨ (∃ e', is_Exception e' = true
              ∧ ending
                = [LogException (exn_str e');
                   Yield (ErrorFrame
                     (str "Streaming TTS generation error: " ++ exn_str e'))]
              ∧ snd (handled (hd ++ tl) e) = Returns tt)
         ∨ (∃ e', is_Exception e' = false ∧ ending = []
              ∧ snd (handled (hd ++ tl) e) = Raises e'))).
  { intros hd tl e Honly Htl. unfold handled.
    destruct (is_Exception e) eqn:He; cbn [fst snd].
    - eexists tl, _. rewrite <- app_assoc.
      split_and!; [done..|]. right. left. by exists e.
    - exists tl, []. rewrite app_nil_r.
      split_and!; [done..|]. right. right. by exists e. }
  assert (Hnil : ∀ hd e,
    mr = false →
    ∃ tl' ending,
      fst (handled hd e) = hd ++ tl' ++ ending
      ∧ audio_only self tl'
      ∧ (mr = false → tl' = [])
      ∧ (ending = [Yield TTSStoppedFrame]
         ∧ snd (handled hd e) = Returns tt
         ∧ mr = true
         ∨ (∃ e', is_Exception e' = true
              ∧ ending
                = [LogException (exn_str e');
                   Yield (ErrorFrame
                     (str "Streaming TTS generation error: " ++ exn_str e'))]
              ∧ snd (handled hd e) = Returns tt)
         ∨ (∃ e', is_Exception e' = false ∧ ending = []
              ∧ snd (handled hd e) = Raises e'))).
  { intros hd e _.
    destruct (Hcase hd [] e (audio_only_nil self) ltac:(done))
      as (tl & ending & E). exists tl, ending.
    by rewrite app_nil_r in E. }
  rewrite run_tts_cases. unfold head_actions.
  unfold metrics_return in Hmr.
  destruct (start_ttfb_metrics env) as [[]|e1]; [|by apply Hnil].
  destruct (start_tts_usage_metrics env text) as [[]|e2]; [|by apply Hnil].
  destruct (streaming_synthesize env _) as [[responses stream_end]|e3].
  2:{ destruct (Hcase (opening self text) [] e3
                  (audio_only_nil self) ltac:(done))
        as (tl & ending & E). exists tl, ending.
      by rewrite app_nil_r in E. }
  destruct (response_loop_frames env self responses false) as (Honly & _).
  destruct (response_loop env self responses false) as [t [b|e]];
    cbn [fst] in Honly.
  - destruct stream_end as [e|].
    + apply Hcase; [done|]. by subst mr.
    + exists t, [Yield TTSStoppedFrame].
      split_and!; [done|done|by subst mr|by left].
  - apply Hcase; [done|]. by subst mr.
Qed.

Lemma head_actions_facts env self text :
  frames (head_actions env self text)
  = (if metrics_return env text then [TTSStartedFrame] else [])
  ∧ remote_calls (head_actions env self text)
    = (if metrics_return env text
       then [_create_streaming_request_generator self text] else [])
  ∧ usage_calls (head_actions env self text)
    = match start_ttfb_metrics env with
      | Returns _ => [text]
      | Raises _ => []
      end
  ∧ sleeps (head_actions env self text) = 0.
Proof.
  unfold head_actions, metrics_return.
  destruct (start_ttfb_metrics env) as [[]|e1]; [|done].
  by destruct (start_tts_usage_metrics env text) as [[]|e2].
Qed.

Lemma filter_is_audio_ok self (l : list Frame) :
  Forall (audio_ok self) l → List.filter is_audio l = l.
Proof.
  induction 1 as [|f l Hf _ IH]; [done|]. cbn.
  by rewrite (audio_ok_is_audio _ _ Hf), IH.
Qed.

(** X14: the frames of every call are: the start marker, when both
    metrics calls returned; then audio frames, each with between one and
    [CHUNK_SIZE] bytes, the sample rate of the service and one channel;
    then the end.  The end is the stop marker when the call returns
    without failure, one error frame with the message when an exception
    that derives from [Exception] was raised, and nothing when another
    exception leaves the call.  So no call yields both a stop marker and
    an error frame, and nothing follows either of them. *)
Theorem run_tts_outcome env self text :
  ∃ audio ending,
    frames (fst (run_tts env self text))
    = (if metrics_return env text then [TTSStartedFrame] else [])
      ++ audio ++ ending
    ∧ Forall (audio_ok self) audio
    ∧ (ending = [TTSStoppedFrame]
       ∧ snd (run_tts env self text) = Returns tt
       ∧ metrics_return env text = true
       ∨ (∃ e, is_Exception e = true
               ∧ ending
                 = [ErrorFrame
                      (str "Streaming TTS generation error: " ++ exn_str e)]
               ∧ snd (run_tts env self text) = Returns tt)
       ∨ (∃ e, is_Exception e = false ∧ ending = []
               ∧ snd (run_tts env self text) = Raises e)).
Proof.
  destruct (run_tts_decompose env self text)
    as (tl & ending & -> & (Hf & _) & _ & Hend).
  destruct (head_actions_facts env self text) as (Hhead & _).
  exists (frames tl), (frames ending).
  rewrite !frames_app, Hhead. split_and!; [done|done|].
  destruct Hend as [(-> & Hs & Hm)|[(e & He & -> & Hs)|(e & He & -> & Hs)]].
  - by left.
  - right. left. by exists e.
  - right. right. by exists e.
Qed.

(** X15: when nothing fails, the call returns; its frames are the start
    marker, the audio frames and the stop marker, and the bytes of the
    audio frames, put together in order, are the bytes of the responses:
    cutting the audio into frames loses and reorders nothing. *)
Theorem run_tts_success env self text responses :
  start_ttfb_metrics env = Returns tt →
  start_tts_usage_metrics env text = Returns tt →
  streaming_synthesize env (_create_streaming_request_generator self text)
  = Returns (responses, None) →
  stop_ttfb_metrics env = Returns tt →
  snd (run_tts env self text) = Returns tt
  ∧ ∃ audio,
      frames (fst (run_tts env self text))
      = TTSStartedFrame :: audio ++ [TTSStoppedFrame]
      ∧ Forall (audio_ok self) audio
      ∧ concat (map payload audio) = concat (map audio_content responses).
Proof.
  intros H1 H2 H3 H4. rewrite run_tts_cases, H1, H2, H3.
  destruct (response_loop_frames env self responses false)
    as ((Hf & _) & Hcat & Hret).
  destruct (Hret (or_intror H4)) as (b & Hb).
  destruct (response_loop env self responses false) as [t r].
  cbn [fst snd] in *. subst r. split; [done|].
  exists (frames t). split_and!; [|done|by apply (Hcat b)].
  cbn [fst]. by rewrite !frames_app.
Qed.

(** X16: a call hands its requests to the remote once when both metrics
    calls returned and never otherwise: it does not retry, whatever
    fails.  The usage metrics get the text once, unless the first metrics
    call raised. *)
Theorem run_tts_remote_calls env self text :
  remote_calls (fst (run_tts env self text))
  = (if metrics_return env text
     then [_create_streaming_request_generator self text] else [])
  ∧ usage_calls (fst (run_tts env self text))
    = match start_ttfb_metrics env with
      | Returns _ => [text]
      | Raises _ => []
      end.
Proof.
  destruct (run_tts_decompose env self text)
    as (tl & ending & -> & (_ & Hr & Hu & _) & _ & Hend).
  destruct (head_actions_facts env self text) as (_ & Hhr & Hhu & _).
  rewrite !remote_calls_app, !usage_calls_app, Hhr, Hhu, Hr, Hu.
  destruct Hend as [(-> & _)|[(e & _ & -> & _)|(e & _ & -> & _)]];
    by rewrite !app_nil_r.
Qed.

(** X17: a call sleeps once for every audio frame it yields, and at no
    other time. *)
Theorem run_tts_sleeps env self text :
  sleeps (fst (run_tts env self text))
  = length (audio_frames (fst (run_tts env self text))).
Proof.
  destruct (run_tts_decompose env self text)
    as (tl & ending & -> & (Hf & _ & _ & Hs) & _ & Hend).
  destruct (head_actions_facts env self text) as (Hhf & _ & _ & Hhs).
  unfold audio_frames.
  rewrite !sleeps_app, !frames_app, !List.filter_app, !length_app, Hhs, Hs.
  rewrite (filter_is_audio_ok _ _ Hf), Hhf.
  destruct Hend as [(-> & _)|[(e & _ & -> & _)|(e & _ & -> & _)]];
    by destruct (metrics_return env text).
Qed.

End WithUnicode.

Lemma run_tts_success_witness :
  snd (run_tts env_audio sample_service (str "Hi")) = Returns tt
  ∧ ∃ audio,
      frames (fst (run_tts env_audio sample_service (str "Hi")))
      = TTSStartedFrame :: audio ++ [TTSStoppedFrame]
      ∧ Forall (audio_ok sample_service) audio
      ∧ concat (map payload audio)
        = concat (map audio_content sample_responses).
Proof.
  apply (run_tts_success env_audio sample_service (str "Hi")
           sample_responses); reflexivity.
Defined.

End DriverMore.
